(** * Projection-and-selection ADMM ([src/admm.h]): a shallow embedding

    The two function templates of [admm.h], [admm] and [admm_benchmark],
    are translated statement by statement.

    - A C++ [double] is a binary64 float, [PrimFloat.float], with the
      IEEE 754 operations of the kernel ([x <? y] is C++ [x < y], false
      on NaN; C++ [a > b] is [b <? a]).
    - [int] counters are in [Z]; [niter] never leaves [0 .. maxiter], so
      the 32-bit wrap-around is never reached.
    - [arma::mat] is a type parameter with the Armadillo operations the
      code uses (class [Arma]); one [mat] stands for the dense matrices
      of the common shape of [input], [z] and [u].
    - The functors [F projection] and [G selection] are passed by value
      and called through [operator()]: the call may change the functor's
      own members and rewrites its matrix argument in place, so a call is
      a function from the functor and the matrix to the new functor and
      the new matrix.
    - Reference parameters ([z], [u], [admm_penalty], [errs], [times])
      are passed in and returned. *)

From Stdlib Require Import ZArith List Bool Lia Floats.
From Equations Require Import Equations.
Import ListNotations.

Set Implicit Arguments.
Unset Strict Implicit.

(** ** C++ comparisons on [double] *)

Definition gtb (a b : float) : bool := (b <? a)%float.
Definition geb (a b : float) : bool := (b <=? a)%float.

Notation "a >? b" := (gtb a b) (at level 70, no associativity) : float_scope.
Notation "a >=? b" := (geb a b) (at level 70, no associativity) : float_scope.

(** ** The order of binary64 values

    [SFcompare] of the specification of the primitive floats, read as a
    lexicographic order on integer keys; used to reason on [<?] and
    [<=?]. *)

(** The place of a float in the order of the extended reals: the sign
    class first, then exponent and mantissa.  NaN compares with nothing;
    its key is not used. *)
Definition sf_key (x : spec_float) : Z * Z * Z :=
  match x with
  | S754_infinity true => (-2, 0, 0)
  | S754_finite true m e => (-1, - e, Zneg m)
  | S754_zero _ => (0, 0, 0)
  | S754_nan => (0, 0, 0)
  | S754_finite false m e => (1, e, Zpos m)
  | S754_infinity false => (2, 0, 0)
  end%Z.

Definition sf_is_nan (x : spec_float) : bool :=
  match x with S754_nan => true | _ => false end.

Definition key_lt (a b : Z * Z * Z) : Prop :=
  let '(a1, a2, a3) := a in
  let '(b1, b2, b3) := b in
  (a1 < b1 \/ (a1 = b1 /\ (a2 < b2 \/ (a2 = b2 /\ a3 < b3))))%Z.

Definition key_le (a b : Z * Z * Z) : Prop := key_lt a b \/ a = b.

(** ** The Armadillo operations used by [admm.h] *)

Class Arma (mat : Type) : Type := {
  mat_plus  : mat -> mat -> mat;      (* A + B, element-wise *)
  mat_minus : mat -> mat -> mat;      (* A - B, element-wise *)
  mat_div   : mat -> float -> mat;    (* A / k *)
  mat_times : mat -> float -> mat;    (* A * k *)
  norm_fro  : mat -> float            (* arma::norm(A, "fro") *)
}.

Declare Scope mat_scope.
Delimit Scope mat_scope with mat.
Infix "+" := mat_plus : mat_scope.
Infix "-" := mat_minus : mat_scope.
Infix "/" := mat_div : mat_scope.
Infix "*" := mat_times : mat_scope.

(** A Frobenius norm is never negative: it is [>= 0], [+inf] or NaN. *)
Definition norm_nonneg {mat} (A : Arma mat) : Prop :=
  forall m : mat, (norm_fro m <? 0)%float = false.

(** How one pass through a loop body ends: at the closing brace
    ([Continue], the [for] statement then runs [niter++]) or at
    [niter++; break;] ([Break]). *)
Inductive control (S : Type) : Type :=
| Continue (s : S)
| Break (s : S).
Arguments Continue {S} s.
Arguments Break {S} s.

Definition is_break {S} (c : control S) : bool :=
  match c with Break _ => true | Continue _ => false end.

Definition control_state {S} (c : control S) : S :=
  match c with Break s | Continue s => s end.

(** * A concrete Armadillo: dense matrices as element arrays

    [arma::mat] keeps its elements in one column-major array [mem]; a
    matrix of a fixed shape is the list of its elements.  The
    element-wise operations pair the elements up (Armadillo raises
    [std::logic_error] on operands of different shapes; the lists here
    are cut to the shorter one), and the Frobenius norm is the square
    root of the sum of the squares. *)

Definition dmat : Type := list float.

Fixpoint zip_with (f : float -> float -> float) (a b : dmat) : dmat :=
  match a, b with
  | x :: a', y :: b' => f x y :: zip_with f a' b'
  | _, _ => []
  end.

Definition sum_squares (a : dmat) : float :=
  fold_left (fun acc v => (acc + v * v)%float) a 0%float.

Definition dmat_norm (a : dmat) : float := sqrt (sum_squares a).

#[export] Instance dmat_arma : Arma dmat := {|
  mat_plus := zip_with PrimFloat.add;
  mat_minus := zip_with PrimFloat.sub;
  mat_div := fun a k => map (fun v => (v / k)%float) a;
  mat_times := fun a k => map (fun v => (v * k)%float) a;
  norm_fro := dmat_norm
|}.

(** The trivial functors: [operator()] leaves its argument as it is. *)
Definition identity_projection {mat : Type} (f : unit) (x : mat) : unit * mat :=
  (f, x).
Definition identity_selection {mat : Type} (g : unit) (z : mat) (k : float)
  : unit * mat := (g, z).

(** * [admm] *)

Section ADMM.
Context {mat : Type} {A : Arma mat}.
(** [F], [G]: the functor types; [projection f x] is the call
    [projection(x)] on the functor value [f], [selection g z k] the
    call [selection(z, k)]. *)
Context {F G : Type}.
Variable projection : F -> mat -> F * mat.
Variable selection : G -> mat -> float -> G * mat.
Variable input : mat.
Variable admm_adjust : float.
Variable maxiter : Z.
Variable tolerance : float.

(** The variables that live across iterations: the two functor copies
    and the three reference parameters. *)
Record vars : Type := Vars {
  v_projection : F;
  v_selection : G;
  v_z : mat;
  v_u : mat;
  v_penalty : float
}.

(** The values of all variables after line 69: the locals [x], [z_old],
    [rr], [ss] and the updated [z], [u] and functors. *)
Record iterate : Type := Iterate {
  it_projection : F;
  it_selection : G;
  it_z_old : mat;
  it_x : mat;
  it_z : mat;
  it_u : mat;
  it_rr : float;
  it_ss : float
}.

(** Lines 54-69. *)
Definition admm_update (s : vars) : iterate :=
  let z_old := v_z s in                                        (* z_old = z *)
  let x := (v_z s - v_u s + input / v_penalty s)%mat in        (* x = z - u + input/penalty *)
  let '(f, x) := projection (v_projection s) x in              (* projection(x) *)
  let z := (x + v_u s)%mat in                                  (* z = x + u *)
  let '(g, z) := selection (v_selection s) z (1 / v_penalty s)%float in
                                                               (* selection(z, 1.0/penalty) *)
  let u := (v_u s + x - z)%mat in                              (* u = u + x - z *)
  let rr := norm_fro (x - z)%mat in                            (* rr = norm(x - z) *)
  let ss := (v_penalty s * norm_fro (z - z_old)%mat)%float in  (* ss = penalty * norm(z - z_old) *)
  Iterate f g z_old x z u rr ss.

(** Line 72. *)
Definition converged (it : iterate) : bool :=
  (it_rr it <? tolerance)%float && (it_ss it <? tolerance)%float.

(** Lines 78-84. *)
Definition penalty_adjust (penalty : float) (it : iterate) : vars :=
  if (it_rr it >? 10 * it_ss it)%float then
    Vars (it_projection it) (it_selection it) (it_z it)
         (it_u it / admm_adjust)%mat (penalty * admm_adjust)%float
  else if (it_ss it >? 10 * it_rr it)%float then
    Vars (it_projection it) (it_selection it) (it_z it)
         (it_u it * admm_adjust)%mat (penalty / admm_adjust)%float
  else
    Vars (it_projection it) (it_selection it) (it_z it) (it_u it) penalty.

(** The loop body, lines 53-84. *)
Definition admm_body (s : vars) : control vars :=
  let it := admm_update s in
  if converged it then
    Break (Vars (it_projection it) (it_selection it) (it_z it) (it_u it) (v_penalty s))
  else
    Continue (penalty_adjust (v_penalty s) it).

(** The [for] loop of line 52, entered with the current [niter]. *)
Equations? admm_loop (niter : Z) (s : vars) : Z * vars
  by wf (Z.to_nat (maxiter - niter)) lt :=
  admm_loop niter s with Z_lt_dec niter maxiter => {
    | right _ => (niter, s)
    | left _ with admm_body s => {
        | Break s' => ((niter + 1)%Z, s')
        | Continue s' => admm_loop (niter + 1)%Z s' } }.
Proof. lia. Qed.

(** [admm]: the returned [niter] and the final [z], [u] and
    [admm_penalty]. *)
Definition admm (f : F) (g : G) (z u : mat) (admm_penalty : float)
  : Z * mat * mat * float :=
  let '(niter, s) := admm_loop 0 (Vars f g z u admm_penalty) in
  (niter, v_z s, v_u s, v_penalty s).

(** ** The iterations of one call

    [loop_head k niter s] is the state in which the loop condition of
    line 52 is evaluated for the (k+1)-th time, counting from a loop
    entered at [niter] with the variables [s]; [None] when the loop has
    ended before that. *)
Fixpoint loop_head (k : nat) (niter : Z) (s : vars) : option (Z * vars) :=
  match k with
  | O => Some (niter, s)
  | S k' =>
      match loop_head k' niter s with
      | Some (n, s') =>
          if Z_lt_dec n maxiter then
            match admm_body s' with
            | Continue s'' => Some ((n + 1)%Z, s'')
            | Break _ => None
            end
          else None
      | None => None
      end
  end.

(** The (k+1)-th iteration, counting from a loop entered at [niter]
    with the variables [s0], is executed and takes the [break] of
    line 74. *)
Definition breaks_at (k : nat) (niter : Z) (s0 : vars) : bool :=
  match loop_head k niter s0 with
  | Some (n, s) => if Z_lt_dec n maxiter then is_break (admm_body s) else false
  | None => false
  end.

(** * [admm_benchmark] *)

(** What the instrumented variant does to its surroundings, in program
    order: output on [Rcpp::Rcout], readings of the wall clock, calls
    of the two functors and of the eigensolver, and [push_back] on the
    two history vectors. *)
Inductive event : Type :=
| EvPrint (niter : Z)        (* Rcpp::Rcout << "iter = " << niter *)
| EvClock (k : nat)          (* get_wall_time(), the k-th reading *)
| EvProjection               (* projection(x) *)
| EvSelection                (* selection(z, 1.0 / admm_penalty) *)
| EvPushTime (d : float)     (* times.push_back(d) *)
| EvEigs                     (* arma::eigs_sym(eigval, eigvec, zsp, int(ndim)) *)
| EvPushErr (e : float).     (* errs.push_back(e) *)

(** The surroundings: the two caller-owned vectors, the number of
    clock readings taken so far, and the log of events. *)
Record world : Type := World {
  w_errs : list float;
  w_times : list float;
  w_clock : nat;
  w_trace : list event
}.

Definition IO (T : Type) : Type := world -> T * world.

Definition ret {T} (v : T) : IO T := fun w => (v, w).

Definition bind {T U} (c : IO T) (k : T -> IO U) : IO U :=
  fun w => let '(v, w') := c w in k v w'.

Notation "x <- c ;; k" := (bind c (fun x => k))
  (at level 61, c at next level, right associativity).
Notation "' p <- c ;; k" := (bind c (fun v => let p := v in k))
  (at level 61, p pattern, c at next level, right associativity).
Notation "c ;; k" := (bind c (fun _ => k))
  (at level 61, right associativity).

Definition log (e : event) : IO unit :=
  fun w => (tt, World (w_errs w) (w_times w) (w_clock w) (w_trace w ++ [e])).

(** [walltime.h] is outside this file: the clock is an oracle,
    [wall_time k] being the value of the k-th reading. *)
Variable wall_time : nat -> float.

Definition get_wall_time : IO float :=
  fun w => (wall_time (w_clock w),
            World (w_errs w) (w_times w) (S (w_clock w))
                  (w_trace w ++ [EvClock (w_clock w)])).

Definition push_back_times (d : float) : IO unit :=
  fun w => (tt, World (w_errs w) (w_times w ++ [d]) (w_clock w)
                      (w_trace w ++ [EvPushTime d])).

Definition push_back_errs (e : float) : IO unit :=
  fun w => (tt, World (w_errs w ++ [e]) (w_times w) (w_clock w)
                      (w_trace w ++ [EvPushErr e])).

Definition Rcout_iter (niter : Z) : IO unit := log (EvPrint niter).

Definition call_projection (f : F) (x : mat) : IO (F * mat) :=
  log EvProjection ;; ret (projection f x).

Definition call_selection (g : G) (z : mat) (k : float) : IO (G * mat) :=
  log EvSelection ;; ret (selection g z k).

(** [arma::sp_mat zsp(z); arma::eigs_sym(eigval, eigvec, zsp, k);
    proj = eigvec * eigvec.t()]: Armadillo's sparse eigensolver, a
    parameter; [eigs_sym_proj z k] is the matrix [proj]. *)
Variable eigs_sym_proj : mat -> Z -> mat.

Definition eigs_sym (z : mat) (k : Z) : IO mat :=
  log EvEigs ;; ret (eigs_sym_proj z k).

(** [int(ndim)]: truncation towards zero (undefined in C++ for NaN,
    infinities and values outside [int]; 0 is taken there). *)
Definition int_of_double (d : float) : Z :=
  match Prim2SF d with
  | S754_finite s m e => cond_Zopp s (Z.shiftl (Zpos m) e)
  | _ => 0%Z
  end.

Variable ndim : float.
Variable truth : mat.
Variable verbose : Z.

(** The loop body, lines 109-169. *)
Definition admm_benchmark_body (niter : Z) (s : vars) : IO (control vars) :=
  (if (0 <? verbose)%Z then Rcout_iter niter else ret tt) ;;
  t1 <- get_wall_time ;;
  let z_old := v_z s in
  let x := (v_z s - v_u s + input / v_penalty s)%mat in
  '(f, x) <- call_projection (v_projection s) x ;;
  let z := (x + v_u s)%mat in
  '(g, z) <- call_selection (v_selection s) z (1 / v_penalty s)%float ;;
  let u := (v_u s + x - z)%mat in
  let rr := norm_fro (x - z)%mat in
  let ss := (v_penalty s * norm_fro (z - z_old)%mat)%float in
  if (rr <? tolerance)%float && (ss <? tolerance)%float then
    t2 <- get_wall_time ;;
    push_back_times (t2 - t1)%float ;;
    proj <- eigs_sym z (int_of_double ndim) ;;
    push_back_errs (norm_fro (proj - truth)%mat) ;;
    ret (Break (Vars f g z u (v_penalty s)))
  else
    let s' :=
      if (rr >? 10 * ss)%float then
        Vars f g z (u / admm_adjust)%mat (v_penalty s * admm_adjust)%float
      else if (ss >? 10 * rr)%float then
        Vars f g z (u * admm_adjust)%mat (v_penalty s / admm_adjust)%float
      else Vars f g z u (v_penalty s) in
    t2 <- get_wall_time ;;
    push_back_times (t2 - t1)%float ;;
    proj <- eigs_sym (v_z s') (int_of_double ndim) ;;
    push_back_errs (norm_fro (proj - truth)%mat) ;;
    ret (Continue s').

(** The [for] loop of line 108. *)
Equations? admm_benchmark_loop (niter : Z) (s : vars) (w : world)
  : Z * vars * world by wf (Z.to_nat (maxiter - niter)) lt :=
  admm_benchmark_loop niter s w with Z_lt_dec niter maxiter => {
    | right _ => (niter, s, w)
    | left _ with admm_benchmark_body niter s w => {
        | (Break s', w') => ((niter + 1)%Z, s', w')
        | (Continue s', w') => admm_benchmark_loop (niter + 1)%Z s' w' } }.
Proof. lia. Qed.

(** [admm_benchmark]: the returned [niter], the final [z], [u],
    [admm_penalty], and the surroundings with the final [errs] and
    [times]. *)
Definition admm_benchmark (f : F) (g : G) (z u : mat) (admm_penalty : float)
  (w : world) : Z * mat * mat * float * world :=
  let '(niter, s, w') := admm_benchmark_loop 0 (Vars f g z u admm_penalty) w in
  (niter, v_z s, v_u s, v_penalty s, w').

(** ** The iteration as the specification words it

    Steps 2 to 5 of the specification's section 4.1, as equations on the
    state [s] in which an iteration starts. *)
Definition spec_x (s : vars) : mat :=
  snd (projection (v_projection s) (v_z s - v_u s + input / v_penalty s)%mat).

Definition spec_z (s : vars) : mat :=
  snd (selection (v_selection s) (spec_x s + v_u s)%mat (1 / v_penalty s)%float).

Definition spec_u (s : vars) : mat := (v_u s + spec_x s - spec_z s)%mat.

Definition spec_r (s : vars) : float := norm_fro (spec_x s - spec_z s)%mat.

Definition spec_s (s : vars) : float :=
  (v_penalty s * norm_fro (spec_z s - v_z s)%mat)%float.

(** ** What one instrumented iteration leaves behind

    The error recorded for an iteration that ends with the variables
    [s'], and the events of an iteration that starts as iteration
    [niter] with [c] clock readings taken before it. *)
Definition recorded_error (s' : vars) : float :=
  norm_fro (eigs_sym_proj (v_z s') (int_of_double ndim) - truth)%mat.

Definition recorded_time (c : nat) : float :=
  (wall_time (S c) - wall_time c)%float.

Definition iteration_events (niter : Z) (c : nat) (s' : vars) : list event :=
  (if (0 <? verbose)%Z then [EvPrint niter] else []) ++
  [EvClock c; EvProjection; EvSelection; EvClock (S c);
   EvPushTime (recorded_time c); EvEigs; EvPushErr (recorded_error s')].

(** The durations recorded by [n] consecutive iterations, the first of
    which starts after [c] clock readings. *)
Definition recorded_times (c n : nat) : list float :=
  map (fun i => recorded_time (c + 2 * i)) (seq 0 n).

(** ** Reading the log of events *)

(** The number of events of one kind in a log. *)
Definition count_events (p : event -> bool) (tr : list event) : nat :=
  length (filter p tr).

Definition is_clock (e : event) : bool :=
  match e with EvClock _ => true | _ => false end.

Definition is_projection (e : event) : bool :=
  match e with EvProjection => true | _ => false end.

Definition is_selection (e : event) : bool :=
  match e with EvSelection => true | _ => false end.

Definition is_eigs (e : event) : bool :=
  match e with EvEigs => true | _ => false end.

Definition is_print (e : event) : bool :=
  match e with EvPrint _ => true | _ => false end.

(** A log with the verbose output taken out. *)
Definition without_prints (tr : list event) : list event :=
  filter (fun e => negb (is_print e)) tr.

(** The iteration indices written to [Rcpp::Rcout], in order. *)
Definition printed (tr : list event) : list Z :=
  flat_map (fun e => match e with EvPrint n => [n] | _ => [] end) tr.

(** * Facts on binary64 arithmetic

    From the specification of the primitive floats ([FloatAxioms]):
    the order, the sign of products, quotients and square roots, and
    the monotonicity of rounding at a representable value. *)

Lemma SFcompare_key (x y : spec_float) :
  sf_is_nan x = false -> sf_is_nan y = false ->
  match SFcompare x y with
  | Some Lt => key_lt (sf_key x) (sf_key y)
  | Some Eq => sf_key x = sf_key y
  | Some Gt => key_lt (sf_key y) (sf_key x)
  | None => False
  end.
Proof.
  destruct x as [sx | [ | ] | | [ | ] mx ex], y as [sy | [ | ] | | [ | ] my ey];
    try discriminate; intros _ _; simpl; try lia; try reflexivity.
  - destruct (Z.compare_spec ex ey); simpl; try lia.
    subst. change (Pos.compare_cont Eq mx my) with (Pos.compare mx my).
    destruct (Pos.compare_spec mx my); simpl; try lia. subst; reflexivity.
  - destruct (Z.compare_spec ex ey); simpl; try lia.
    subst. change (Pos.compare_cont Eq mx my) with (Pos.compare mx my).
    destruct (Pos.compare_spec mx my); simpl; try lia. subst; reflexivity.
Qed.

Lemma SFltb_key (x y : spec_float) :
  SFltb x y = true <->
  sf_is_nan x = false /\ sf_is_nan y = false /\ key_lt (sf_key x) (sf_key y).
Proof.
  unfold SFltb. split.
  - intros H. assert (Hx : sf_is_nan x = false) by (destruct x; try reflexivity; discriminate).
    assert (Hy : sf_is_nan y = false) by (destruct x, y; try reflexivity; discriminate).
    pose proof (SFcompare_key Hx Hy) as K.
    destruct (SFcompare x y) as [[ | | ] | ]; try discriminate. auto.
  - intros (Hx & Hy & Hlt). pose proof (SFcompare_key Hx Hy) as K.
    destruct (SFcompare x y) as [[ | | ] | ]; try reflexivity; try contradiction;
      exfalso; destruct (sf_key x) as [[a1 a2] a3], (sf_key y) as [[b1 b2] b3];
      unfold key_lt in *; try (injection K as -> -> ->); lia.
Qed.

Lemma SFleb_key (x y : spec_float) :
  SFleb x y = true <->
  sf_is_nan x = false /\ sf_is_nan y = false /\ key_le (sf_key x) (sf_key y).
Proof.
  unfold SFleb, key_le. split.
  - intros H. assert (Hx : sf_is_nan x = false) by (destruct x; try reflexivity; discriminate).
    assert (Hy : sf_is_nan y = false) by (destruct x, y; try reflexivity; discriminate).
    pose proof (SFcompare_key Hx Hy) as K.
    destruct (SFcompare x y) as [[ | | ] | ]; try discriminate; auto.
  - intros (Hx & Hy & Hle). pose proof (SFcompare_key Hx Hy) as K.
    destruct (SFcompare x y) as [[ | | ] | ]; try reflexivity; try contradiction.
    exfalso; destruct (sf_key x) as [[a1 a2] a3], (sf_key y) as [[b1 b2] b3].
    unfold key_lt in *. destruct Hle as [Hle | Heq]; [ lia | ].
    injection Heq as -> -> ->. lia.
Qed.
Local Open Scope Z_scope.

Lemma digits2_pos_bounds (p : positive) :
  2 ^ (Zpos (digits2_pos p) - 1) <= Zpos p < 2 ^ Zpos (digits2_pos p).
Proof.
  induction p as [p IH | p IH | ]; simpl digits2_pos.
  - rewrite Pos2Z.inj_succ, Z.pow_succ_r by lia.
    replace (Z.succ (Zpos (digits2_pos p)) - 1) with (Z.succ (Zpos (digits2_pos p) - 1)) by lia.
    rewrite Z.pow_succ_r by lia. lia.
  - rewrite Pos2Z.inj_succ, Z.pow_succ_r by lia.
    replace (Z.succ (Zpos (digits2_pos p)) - 1) with (Z.succ (Zpos (digits2_pos p) - 1)) by lia.
    rewrite Z.pow_succ_r by lia. lia.
  - simpl. lia.
Qed.

Lemma shr_m_shr_1 (r : shr_record) :
  0 <= shr_m r -> shr_m (shr_1 r) = shr_m r / 2.
Proof.
  destruct r as [m b s]; simpl. intros Hm.
  destruct m as [ | [p | p | ] | p ]; try lia; cbn -[Z.div].
  - reflexivity.
  - apply (Z.div_unique _ 2 _ 1); lia.
  - apply (Z.div_unique _ 2 _ 0); lia.
  - reflexivity.
Qed.

Lemma shr_m_iter_pos (p : positive) (r : shr_record) :
  0 <= shr_m r -> shr_m (iter_pos shr_1 p r) = shr_m r / 2 ^ Zpos p.
Proof.
  revert r; induction p as [p IH | p IH | ]; intros r Hr; simpl iter_pos.
  - assert (H1 : 0 <= shr_m (shr_1 r)).
    { rewrite shr_m_shr_1 by assumption. apply Z.div_pos; lia. }
    assert (H2 : 0 <= shr_m (iter_pos shr_1 p (shr_1 r))).
    { rewrite IH by assumption. apply Z.div_pos; [ assumption | apply Z.pow_pos_nonneg; lia ]. }
    rewrite IH, IH, shr_m_shr_1 by assumption.
    rewrite !Z.div_div by (try apply Z.pow_pos_nonneg; lia).
    f_equal. rewrite (Pos2Z.inj_xI p).
    replace (2 * Zpos p + 1) with (1 + Zpos p + Zpos p) by lia.
    rewrite !Z.pow_add_r by lia. lia.
  - assert (H2 : 0 <= shr_m (iter_pos shr_1 p r)).
    { rewrite IH by assumption. apply Z.div_pos; [ assumption | apply Z.pow_pos_nonneg; lia ]. }
    rewrite IH, IH by assumption.
    rewrite !Z.div_div by (try apply Z.pow_pos_nonneg; lia).
    f_equal. rewrite (Pos2Z.inj_xO p).
    replace (2 * Zpos p) with (Zpos p + Zpos p) by lia.
    rewrite !Z.pow_add_r by lia. lia.
  - rewrite shr_m_shr_1 by assumption. reflexivity.
Qed.

Lemma shr_spec (r : shr_record) (e n : Z) :
  0 <= shr_m r ->
  shr_m (fst (shr r e n)) = shr_m r / 2 ^ Z.max 0 n /\
  snd (shr r e n) = e + Z.max 0 n.
Proof.
  intros Hr. destruct n as [ | p | p]; simpl.
  - rewrite Z.div_1_r. lia.
  - rewrite shr_m_iter_pos by assumption. split; reflexivity.
  - rewrite Z.div_1_r. lia.
Qed.

Lemma shr_m_of_loc (m : Z) (l : location) : shr_m (shr_record_of_loc m l) = m.
Proof. destruct l as [ | [ | | ]]; reflexivity. Qed.

Lemma shr_fexp_spec (m e : Z) (l : location) :
  0 <= m ->
  let n := Z.max 0 (fexp 53 1024 (Zdigits2 m + e) - e) in
  shr_m (fst (shr_fexp 53 1024 m e l)) = m / 2 ^ n /\
  snd (shr_fexp 53 1024 m e l) = e + n.
Proof.
  intros Hm n. unfold shr_fexp.
  destruct (@shr_spec (shr_record_of_loc m l) e (fexp 53 1024 (Zdigits2 m + e) - e)) as [H1 H2].
  - rewrite shr_m_of_loc. assumption.
  - rewrite shr_m_of_loc in H1. split; assumption.
Qed.

Lemma round_nearest_even_ge (m : Z) (l : location) : m <= round_nearest_even m l.
Proof.
  destruct l as [ | [ | | ]]; simpl; try lia.
  destruct (Z.even m); lia.
Qed.

Lemma fexp_def (e : Z) : fexp 53 1024 e = Z.max (e - 53) (-1074).
Proof. reflexivity. Qed.

Lemma Zdigits2_bounds (m : Z) :
  0 < m -> 2 ^ (Zdigits2 m - 1) <= m < 2 ^ Zdigits2 m.
Proof.
  destruct m as [ | p | p]; try lia. intros _. apply digits2_pos_bounds.
Qed.

(** What rounding does to a positive value [m * 2^e]: the result is
    positive, or zero when the mantissa is shifted out. *)
Lemma binary_round_aux_cases (s : bool) (m e : Z) (l : location) :
  0 <= m ->
  exists (m'' e'' : Z),
    0 <= m'' /\
    binary_round_aux 53 1024 s m e l =
      match m'' with
      | Z0 => S754_zero s
      | Zpos p => if e'' <=? 1024 - 53 then S754_finite s p e'' else S754_infinity s
      | Zneg _ => S754_nan
      end /\
    let n1 := Z.max 0 (fexp 53 1024 (Zdigits2 m + e) - e) in
    let m1 := round_nearest_even (m / 2 ^ n1) (loc_of_shr_record (fst (shr_fexp 53 1024 m e l))) in
    let n2 := Z.max 0 (fexp 53 1024 (Zdigits2 m1 + (e + n1)) - (e + n1)) in
    m / 2 ^ n1 <= m1 /\ m'' = m1 / 2 ^ n2 /\ e'' = e + n1 + n2.
Proof.
  intros Hm. unfold binary_round_aux.
  destruct (shr_fexp_spec e l Hm) as [H1 H2].
  destruct (shr_fexp 53 1024 m e l) as [mrs' e'] eqn:Hs1. simpl in H1, H2.
  set (n1 := Z.max 0 (fexp 53 1024 (Zdigits2 m + e) - e)) in *.
  set (m1 := round_nearest_even (shr_m mrs') (loc_of_shr_record mrs')).
  assert (Hq : 0 <= m / 2 ^ n1) by (apply Z.div_pos; [ lia | apply Z.pow_pos_nonneg; lia ]).
  assert (Hm1 : m / 2 ^ n1 <= m1).
  { unfold m1. rewrite <- H1. apply round_nearest_even_ge. }
  assert (Hm1' : 0 <= m1) by lia.
  destruct (shr_fexp_spec e' loc_Exact Hm1') as [H3 H4].
  destruct (shr_fexp 53 1024 m1 e' loc_Exact) as [mrs'' e''] eqn:Hs2. simpl in H3, H4.
  exists (shr_m mrs''), e''. split; [ | split ].
  - rewrite H3. apply Z.div_pos; [ lia | apply Z.pow_pos_nonneg; lia ].
  - reflexivity.
  - simpl. fold n1. unfold m1 in *. rewrite H1 in *. subst e'.
    split; [ assumption | split; [ exact H3 | exact H4 ] ].
Qed.

Lemma div_pow2_lower (a b k : Z) :
  0 <= k -> b * 2 ^ k <= a -> b <= a / 2 ^ k.
Proof.
  intros Hk H. apply Z.div_le_lower_bound; [ apply Z.pow_pos_nonneg; lia | lia ].
Qed.

(** Rounding is monotone at a representable point: a positive value
    [M * 2^E] that is at least the canonical [m * 2^e] rounds to a
    float that is at least [m * 2^e]. *)
Lemma binary_round_aux_lower (M : positive) (E : Z) (m : positive) (e : Z) (l : location) :
  fexp 53 1024 (Zpos (digits2_pos m) + e) = e ->
  E <= e ->
  Zpos m * 2 ^ (e - E) <= Zpos M ->
  let r := binary_round_aux 53 1024 false (Zpos M) E l in
  sf_is_nan r = false /\ key_le (sf_key (S754_finite false m e)) (sf_key r).
Proof.
  intros Hcan HE HM r.
  destruct (@binary_round_aux_cases false (Zpos M) E l) as (m'' & e'' & Hm'' & Hr & Hrel);
    [ lia | ].
  fold r in Hr. cbv zeta in Hrel.
  set (n1 := Z.max 0 (fexp 53 1024 (Zdigits2 (Zpos M) + E) - E)) in *.
  set (m1 := round_nearest_even (Zpos M / 2 ^ n1) _) in *.
  set (n2 := Z.max 0 (fexp 53 1024 (Zdigits2 m1 + (E + n1)) - (E + n1))) in *.
  destruct Hrel as (Hm1 & Hm2 & He2).
  pose proof (digits2_pos_bounds m) as Bm.
  pose proof (digits2_pos_bounds M) as BM.
  set (dm := Zpos (digits2_pos m)) in *.
  change (Zdigits2 (Zpos M)) with (Zpos (digits2_pos M)) in n1.
  set (dM := Zpos (digits2_pos M)) in *.
  rewrite fexp_def in Hcan.
  (* the digits of M *)
  assert (Hd : dm + e <= dM + E).
  { destruct (Z_le_gt_dec (dm + e) (dM + E)) as [ | Hgt]; [ assumption | exfalso ].
    assert (2 ^ dM <= 2 ^ (dm - 1 + (e - E))) by (apply Z.pow_le_mono_r; lia).
    rewrite Z.pow_add_r in H by lia.
    assert (2 ^ (dm - 1) * 2 ^ (e - E) <= Zpos m * 2 ^ (e - E)).
    { apply Z.mul_le_mono_nonneg_r; [ apply Z.pow_nonneg; lia | lia ]. }
    lia. }
  assert (Hn1 : n1 = Z.max (dM + E - 53) (-1074) - E).
  { unfold n1. rewrite fexp_def. lia. }
  (* after the first shift *)
  assert (Hq : 1 <= Zpos M / 2 ^ n1 /\ (E + n1 = e -> Zpos m <= Zpos M / 2 ^ n1)).
  { split.
    - destruct (Z.eq_dec (E + n1) e) as [Heq | Hne].
      + replace n1 with (e - E) by lia.
        apply Z.le_trans with (Zpos m); [ lia | ].
        apply div_pow2_lower; lia.
      + assert (n1 = dM - 53) by lia.
        apply Z.le_trans with (2 ^ 52); [ lia | ].
        apply div_pow2_lower; [ lia | ].
        rewrite <- Z.pow_add_r by lia.
        replace (52 + n1) with (dM - 1) by lia. lia.
    - intros Heq. replace n1 with (e - E) by lia. apply div_pow2_lower; lia. }
  destruct Hq as [Hq1 Hq2].
  assert (Hm1pos : 0 < m1) by lia.
  pose proof (Zdigits2_bounds Hm1pos) as B1.
  set (d1 := Zdigits2 m1) in *.
  assert (Hn2 : n2 = Z.max 0 (d1 - 53)).
  { unfold n2. rewrite fexp_def. lia. }
  assert (Hpos : 1 <= m'').
  { rewrite Hm2. destruct (Z_le_gt_dec d1 53).
    - replace n2 with 0 by lia. rewrite Z.div_1_r. lia.
    - apply Z.le_trans with (2 ^ 52); [ lia | ].
      apply div_pow2_lower; [ lia | ].
      rewrite <- Z.pow_add_r by lia.
      replace (52 + n2) with (d1 - 1) by lia. lia. }
  assert (Hord : e < e'' \/ (e = e'' /\ Zpos m <= m'')).
  { destruct (Z.eq_dec e'' e) as [Heq | Hne]; [ right | left; lia ].
    split; [ lia | ].
    assert (n2 = 0) by lia. assert (E + n1 = e) by lia.
    rewrite Hm2. replace n2 with 0 by lia. rewrite Z.div_1_r.
    specialize (Hq2 H0). lia. }
  destruct m'' as [ | p | p]; try lia.
  rewrite Hr. destruct (e'' <=? 1024 - 53); simpl; (split; [ reflexivity | ]);
    unfold key_le, key_lt.
  - destruct Hord as [Hlt | [-> Hle]]; [ left; lia | ].
    destruct (Z.eq_dec (Zpos m) (Zpos p)) as [Heq | Hne];
      [ right; congruence | left; lia ].
  - left. lia.
Qed.

Local Close Scope Z_scope.
Local Open Scope float_scope.

Ltac key_destruct :=
  repeat match goal with
    | |- context [sf_key ?x] => destruct (sf_key x) as [[? ?] ?]
    | H : context [sf_key ?x] |- _ => destruct (sf_key x) as [[? ?] ?]
    end;
  unfold key_le, key_lt in *.

Ltac key_solve :=
  key_destruct;
  repeat match goal with
    | H : _ \/ _ |- _ => destruct H
    | H : _ /\ _ |- _ => destruct H
    | H : (_, _) = (_, _) |- _ => injection H as ? ? ?; subst
    end;
  try lia.

Lemma float_le_lt_trans (a b c : float) :
  (a <=? b) = true -> (b <? c) = true -> (a <? c) = true.
Proof.
  rewrite leb_spec, !ltb_spec, SFleb_key, !SFltb_key.
  intros (Ha & Hb & Hab) (_ & Hc & Hbc).
  repeat split; try assumption. key_solve.
Qed.

Lemma float_lt_le (a b : float) : (a <? b) = true -> (a <=? b) = true.
Proof.
  rewrite leb_spec, ltb_spec, SFleb_key, SFltb_key.
  intros (Ha & Hb & Hab). repeat split; try assumption. left; assumption.
Qed.

Lemma float_lt_asym (a b : float) : (a <? b) = true -> (b <? a) = false.
Proof.
  intros H. destruct (b <? a) eqn:H'; [ exfalso | reflexivity ].
  rewrite ltb_spec, SFltb_key in H, H'.
  destruct H as (_ & _ & H), H' as (_ & _ & H'). key_solve.
Qed.

(** [a <= b] excludes [a > b]. *)
Lemma float_le_not_gt (a b : float) : (a <=? b) = true -> (b <? a) = false.
Proof.
  intros H. destruct (b <? a) eqn:H'; [ exfalso | reflexivity ].
  rewrite leb_spec, SFleb_key in H. rewrite ltb_spec, SFltb_key in H'.
  destruct H as (_ & _ & H), H' as (_ & _ & H'). key_solve.
Qed.

(** A float that is not below zero and is not NaN is at least zero. *)
Lemma float_not_neg_le (y r : float) :
  (r <? 0) = false -> (y <? r) = true -> (0 <=? r) = true.
Proof.
  intros Hneg Hy. rewrite ltb_spec, SFltb_key in Hy. destruct Hy as (_ & Hr & _).
  destruct (0 <=? r) eqn:Hle; [ reflexivity | exfalso ].
  assert (Hlt : (r <? 0) = true); [ | congruence ].
  rewrite ltb_spec, SFltb_key. repeat split; try assumption.
  destruct (Prim2SF r) as [s | [ | ] | | [ | ] m e] eqn:E; try discriminate;
    rewrite leb_spec, E in Hle; try discriminate; simpl; lia.
Qed.

Lemma Prim2SF_ten : Prim2SF 10 = S754_finite false 5629499534213120 (-49).
Proof. reflexivity. Qed.

Lemma Prim2SF_zero : Prim2SF 0 = S754_zero false.
Proof. reflexivity. Qed.

(** Multiplying a float that is at least zero by ten does not make it
    smaller. *)
Lemma float_le_ten_times (x : float) :
  (0 <=? x) = true -> (x <=? 10 * x) = true.
Proof.
  intros H0. rewrite leb_spec, Prim2SF_zero in H0.
  rewrite leb_spec, mul_spec, Prim2SF_ten.
  pose proof (Prim2SF_valid x) as Hv.
  destruct (Prim2SF x) as [s | [ | ] | | [ | ] m e]; try discriminate; try reflexivity.
  unfold SF64mul, SFmul. simpl xorb.
  simpl in Hv. unfold bounded, canonical_mantissa in Hv.
  apply andb_prop in Hv. destruct Hv as [Hcan _]. apply Z.eqb_eq in Hcan.
  rewrite SFleb_key.
  destruct (@binary_round_aux_lower (5629499534213120 * m) (-49 + e) m e loc_Exact)
    as [Hnan Hle].
  - exact Hcan.
  - lia.
  - replace (e - (-49 + e))%Z with 49%Z by lia.
    change (2 ^ 49)%Z with 562949953421312%Z. lia.
  - repeat split; assumption.
Qed.

(** The two penalty adjustments exclude each other when [rr] is a
    norm: [rr > 10 * ss] and [ss > 10 * rr] cannot both hold. *)
Lemma float_ten_times_exclusive (rr ss : float) :
  (rr <? 0) = false ->
  (10 * ss <? rr) = true -> (10 * rr <? ss) = true -> False.
Proof.
  intros Hrr H1 H2.
  assert (Hr0 : (0 <=? rr) = true) by (apply (float_not_neg_le Hrr H1)).
  assert (Hrs : (rr <? ss) = true).
  { apply float_le_lt_trans with (10 * rr); [ apply float_le_ten_times | ]; assumption. }
  assert (Hs0 : (0 <=? ss) = true).
  { apply float_lt_le. apply float_le_lt_trans with rr; assumption. }
  assert (Hsr : (ss <? rr) = true).
  { apply float_le_lt_trans with (10 * ss); [ apply float_le_ten_times | ]; assumption. }
  rewrite (float_lt_asym Hrs) in Hsr. discriminate.
Qed.

(** A rounded non-negative mantissa gives a float that is at least
    zero: a zero, a positive finite float or [+inf]. *)
Lemma binary_round_aux_nonneg (m e : Z) (l : location) :
  (0 <= m)%Z ->
  SFleb (S754_zero false) (binary_round_aux 53 1024 false m e l) = true.
Proof.
  intros Hm.
  destruct (@binary_round_aux_cases false m e l Hm) as (m'' & e'' & Hm'' & Hr & _).
  rewrite Hr. destruct m'' as [ | p | p]; [ reflexivity | | lia ].
  destruct (e'' <=? 1024 - 53)%Z; reflexivity.
Qed.

(** Rounding with the positive sign never gives a float below zero. *)
Lemma binary_round_aux_not_neg (m e : Z) (l : location) :
  SFltb (binary_round_aux 53 1024 false m e l) (S754_zero false) = false.
Proof.
  unfold binary_round_aux.
  destruct (shr_fexp 53 1024 m e l) as [mrs' e'].
  destruct (shr_fexp 53 1024 _ e' loc_Exact) as [mrs'' e''].
  destruct (shr_m mrs'') as [ | p | p]; try reflexivity.
  destruct (e'' <=? 1024 - 53)%Z; reflexivity.
Qed.

Lemma float_sqrt_not_neg (x : float) : (sqrt x <? 0) = false.
Proof.
  rewrite ltb_spec, sqrt_spec, Prim2SF_zero.
  unfold SF64sqrt, SFsqrt.
  destruct (Prim2SF x) as [s | [ | ] | | [ | ] m e]; try reflexivity.
  destruct (SFsqrt_core_binary prec emax (Zpos m) e) as [[mz ez] lz].
  apply binary_round_aux_not_neg.
Qed.

Lemma Prim2SF_one : Prim2SF 1 = S754_finite false 4503599627370496 (-52).
Proof. reflexivity. Qed.

Lemma Prim2SF_infinity : Prim2SF infinity = S754_infinity false.
Proof. reflexivity. Qed.

(** A float strictly between one and [+inf] is finite and positive. *)
Lemma float_finite_above_one (k : float) :
  (1 <? k) = true -> (k <? infinity) = true ->
  exists m e, Prim2SF k = S754_finite false m e.
Proof.
  rewrite !ltb_spec, Prim2SF_one, Prim2SF_infinity.
  destruct (Prim2SF k) as [s | [ | ] | | [ | ] m e]; try discriminate.
  intros _ _. exists m, e. reflexivity.
Qed.

(** Multiplying or dividing a float that is at least zero by a finite
    factor above one leaves it at least zero (never negative, never
    NaN). *)
Lemma float_mul_nonneg (a k : float) :
  (0 <=? a) = true -> (1 <? k) = true -> (k <? infinity) = true ->
  (0 <=? a * k) = true.
Proof.
  intros Ha H1 Hinf. destruct (float_finite_above_one H1 Hinf) as (mk & ek & Hk).
  rewrite leb_spec, Prim2SF_zero in Ha.
  rewrite leb_spec, Prim2SF_zero, mul_spec, Hk.
  destruct (Prim2SF a) as [s | [ | ] | | [ | ] m e]; try discriminate; try reflexivity.
  unfold SF64mul, SFmul. simpl xorb. apply binary_round_aux_nonneg. lia.
Qed.

Lemma float_div_nonneg (a k : float) :
  (0 <=? a) = true -> (1 <? k) = true -> (k <? infinity) = true ->
  (0 <=? a / k) = true.
Proof.
  intros Ha H1 Hinf. destruct (float_finite_above_one H1 Hinf) as (mk & ek & Hk).
  rewrite leb_spec, Prim2SF_zero in Ha.
  rewrite leb_spec, Prim2SF_zero, div_spec, Hk.
  destruct (Prim2SF a) as [s | [ | ] | | [ | ] m e]; try discriminate; try reflexivity.
  unfold SF64div, SFdiv. simpl xorb.
  destruct (SFdiv_core_binary prec emax (Zpos m) e (Zpos mk) ek) as [[mz ez] lz] eqn:Hcore.
  apply binary_round_aux_nonneg.
  unfold SFdiv_core_binary in Hcore.
  match type of Hcore with
  | (let '(q, r) := Z.div_eucl ?a ?b in _) = _ =>
      pose proof (Z_div_mod a b eq_refl) as Hdm;
      assert (Ha' : (0 <= a)%Z);
      [ | destruct (Z.div_eucl a b) as [q r]; injection Hcore as <- _ _ ]
  end.
  - match goal with
    | |- (0 <= match ?s with _ => _ end)%Z => destruct s; try lia
    end.
    apply Z.shiftl_nonneg. lia.
  - nia.
Qed.

Local Close Scope float_scope.

(** * Properties of the two loops *)

(** ** Each loop, unfolded once *)

Lemma admm_loop_step (niter : Z) (s : vars) :
  admm_loop niter s =
  if Z_lt_dec niter maxiter then
    match admm_body s with
    | Break s' => ((niter + 1)%Z, s')
    | Continue s' => admm_loop (niter + 1) s'
    end
  else (niter, s).
Proof.
  simp admm_loop.
  destruct (Z_lt_dec niter maxiter) as [Hlt | Hge]; simpl; [ | reflexivity ].
  destruct (admm_body s); reflexivity.
Qed.

Lemma admm_benchmark_loop_step (niter : Z) (s : vars) (w : world) :
  admm_benchmark_loop niter s w =
  if Z_lt_dec niter maxiter then
    match admm_benchmark_body niter s w with
    | (Break s', w') => ((niter + 1)%Z, s', w')
    | (Continue s', w') => admm_benchmark_loop (niter + 1) s' w'
    end
  else (niter, s, w).
Proof.
  simp admm_benchmark_loop.
  destruct (Z_lt_dec niter maxiter) as [Hlt | Hge]; simpl; [ | reflexivity ].
  destruct (admm_benchmark_body niter s w) as [[s' | s'] w']; reflexivity.
Qed.

(** Induction along the iterations of [admm_loop]. *)
Lemma admm_loop_induction (P : Z -> vars -> Z * vars -> Prop) :
  (forall niter s, (maxiter <= niter)%Z -> P niter s (niter, s)) ->
  (forall niter s s', (niter < maxiter)%Z -> admm_body s = Break s' ->
     P niter s ((niter + 1)%Z, s')) ->
  (forall niter s s', (niter < maxiter)%Z -> admm_body s = Continue s' ->
     P (niter + 1)%Z s' (admm_loop (niter + 1) s') ->
     P niter s (admm_loop (niter + 1) s')) ->
  forall niter s, P niter s (admm_loop niter s).
Proof.
  intros Hexit Hbreak Hcont niter s.
  remember (Z.to_nat (maxiter - niter)) as fuel eqn:Hfuel.
  revert niter s Hfuel.
  induction fuel as [fuel IH] using lt_wf_ind; intros niter s Hfuel.
  rewrite admm_loop_step.
  destruct (Z_lt_dec niter maxiter) as [Hlt | Hge].
  - destruct (admm_body s) as [s' | s'] eqn:Hbody.
    + apply Hcont; [ assumption | assumption | ].
      apply (IH (Z.to_nat (maxiter - (niter + 1)))); [ lia | reflexivity ].
    + apply Hbreak; assumption.
  - apply Hexit; lia.
Qed.

Lemma loop_head_niter (k : nat) (n0 : Z) (s0 : vars) (n : Z) (s : vars) :
  loop_head k n0 s0 = Some (n, s) -> n = (n0 + Z.of_nat k)%Z.
Proof.
  revert n s; induction k as [ | k IH]; intros n s; simpl.
  - intros [= <- <-]. lia.
  - destruct (loop_head k n0 s0) as [[n1 s1] | ]; [ | discriminate ].
    destruct (Z_lt_dec n1 maxiter); [ | discriminate ].
    destruct (admm_body s1); [ | discriminate ].
    intros [= <- <-]. rewrite (IH n1 s1 eq_refl). lia.
Qed.

(** The loop resumed at any of its heads gives the result of the call. *)
Lemma loop_head_resume (k : nat) (n0 : Z) (s0 : vars) (n : Z) (s : vars) :
  loop_head k n0 s0 = Some (n, s) -> admm_loop n0 s0 = admm_loop n s.
Proof.
  revert n s; induction k as [ | k IH]; intros n s; simpl.
  - intros [= <- <-]. reflexivity.
  - destruct (loop_head k n0 s0) as [[n1 s1] | ]; [ | discriminate ].
    destruct (Z_lt_dec n1 maxiter) as [Hlt | ]; [ | discriminate ].
    destruct (admm_body s1) as [s2 | ] eqn:Hbody; [ | discriminate ].
    intros [= <- <-]. rewrite (IH n1 s1 eq_refl), (admm_loop_step n1 s1).
    destruct (Z_lt_dec n1 maxiter); [ | contradiction ].
    rewrite Hbody. reflexivity.
Qed.

Lemma loop_head_none_later (k j : nat) (n0 : Z) (s0 : vars) :
  loop_head k n0 s0 = None -> (k <= j)%nat -> loop_head j n0 s0 = None.
Proof.
  intros Hk Hle; induction Hle as [ | j Hle IH]; [ assumption | ].
  simpl. rewrite IH. reflexivity.
Qed.

(** ** The update of lines 54-69 against the specification's steps *)

Lemma admm_update_spec (s : vars) :
  it_z_old (admm_update s) = v_z s /\
  it_x (admm_update s) = spec_x s /\
  it_z (admm_update s) = spec_z s /\
  it_u (admm_update s) = spec_u s /\
  it_rr (admm_update s) = spec_r s /\
  it_ss (admm_update s) = spec_s s.
Proof.
  unfold admm_update, spec_r, spec_s, spec_u, spec_z, spec_x.
  destruct (projection (v_projection s) (v_z s - v_u s + input / v_penalty s)%mat)
    as [f x]; simpl.
  destruct (selection (v_selection s) (x + v_u s)%mat (1 / v_penalty s)%float)
    as [g z]; simpl.
  repeat split; reflexivity.
Qed.

(** ** Claims on [admm] *)

(** C1. In a call of [admm] with [maxiter > 0], every executed iteration
    (the loop head reached with [niter < maxiter], in state [s]) takes
    the snapshot [z_old = z], computes [x] by the projection functor
    applied to [z - u + input/penalty], then [z] by the selection functor
    applied to [x + u] with scale [1/penalty], then [u = u + x - z], then
    [rr = norm(x - z)] and [ss = penalty * norm(z - z_old)]; the result
    of the call is decided from these values by the convergence test and
    the penalty adjustment. *)
Theorem admm_iteration_steps (s0 : vars) (k : nat) (niter : Z) (s : vars) :
  (0 < maxiter)%Z ->
  loop_head k 0 s0 = Some (niter, s) ->
  (niter < maxiter)%Z ->
  it_z_old (admm_update s) = v_z s /\
  it_x (admm_update s) = spec_x s /\
  it_z (admm_update s) = spec_z s /\
  it_u (admm_update s) = spec_u s /\
  it_rr (admm_update s) = spec_r s /\
  it_ss (admm_update s) = spec_s s /\
  admm_loop 0 s0 =
    if (spec_r s <? tolerance)%float && (spec_s s <? tolerance)%float then
      ((niter + 1)%Z,
       Vars (it_projection (admm_update s)) (it_selection (admm_update s))
            (spec_z s) (spec_u s) (v_penalty s))
    else
      admm_loop (niter + 1) (penalty_adjust (v_penalty s) (admm_update s)).
Proof.
  intros _ Hhead Hlt.
  destruct (admm_update_spec s) as (Hold & Hx & Hz & Hu & Hr & Hs).
  repeat (split; [ assumption | ]).
  rewrite (loop_head_resume Hhead), admm_loop_step.
  destruct (Z_lt_dec niter maxiter); [ | contradiction ].
  unfold admm_body, converged. rewrite Hr, Hs, Hz, Hu.
  destruct ((spec_r s <? tolerance)%float && (spec_s s <? tolerance)%float);
    reflexivity.
Qed.

(** C2. When, in an executed iteration, [rr < tolerance] and
    [ss < tolerance], the call returns at once with the counter
    incremented once more: [z] and [u] are those of lines 61-65, the
    penalty is the one the iteration started with, [u] is not rescaled,
    and the loop condition is not evaluated again. *)
Theorem admm_converged_iteration_returns
  (s0 : vars) (k : nat) (niter : Z) (s : vars) :
  loop_head k 0 s0 = Some (niter, s) ->
  (niter < maxiter)%Z ->
  (it_rr (admm_update s) <? tolerance)%float = true ->
  (it_ss (admm_update s) <? tolerance)%float = true ->
  admm_loop 0 s0 =
    ((niter + 1)%Z,
     Vars (it_projection (admm_update s)) (it_selection (admm_update s))
          (it_z (admm_update s)) (it_u (admm_update s)) (v_penalty s)) /\
  niter = Z.of_nat k /\
  forall j : nat, (k < j)%nat -> loop_head j 0 s0 = None.
Proof.
  intros Hhead Hlt Hr Hs.
  assert (Hbody : admm_body s =
            Break (Vars (it_projection (admm_update s)) (it_selection (admm_update s))
                        (it_z (admm_update s)) (it_u (admm_update s)) (v_penalty s))).
  { unfold admm_body, converged. rewrite Hr, Hs. reflexivity. }
  split; [ | split ].
  - rewrite (loop_head_resume Hhead), admm_loop_step.
    destruct (Z_lt_dec niter maxiter); [ | contradiction ].
    rewrite Hbody. reflexivity.
  - rewrite (loop_head_niter Hhead). lia.
  - intros j Hj. apply (@loop_head_none_later (S k)); [ | lia ].
    simpl. rewrite Hhead.
    destruct (Z_lt_dec niter maxiter); [ | reflexivity ].
    rewrite Hbody. reflexivity.
Qed.

(** C9. With [maxiter <= 0] the loop body is never entered: [admm]
    returns 0 and leaves [z], [u] and [admm_penalty] as they were. *)
Theorem admm_maxiter_nonpositive
  (f : F) (g : G) (z u : mat) (admm_penalty : float) :
  (maxiter <= 0)%Z ->
  admm f g z u admm_penalty = (0%Z, z, u, admm_penalty) /\
  loop_head 1 0 (Vars f g z u admm_penalty) = None.
Proof.
  intros Hmax. unfold admm. rewrite admm_loop_step. simpl.
  destruct (Z_lt_dec 0 maxiter); [ lia | ].
  split; reflexivity.
Qed.

(** ** The returned count *)

Lemma loop_head_shift (k : nat) (niter : Z) (s : vars) :
  loop_head (S k) niter s =
  if Z_lt_dec niter maxiter then
    match admm_body s with
    | Continue s' => loop_head k (niter + 1) s'
    | Break _ => None
    end
  else None.
Proof.
  induction k as [ | k IH]; [ reflexivity | ].
  change (loop_head (S (S k)) niter s) with
    (match loop_head (S k) niter s with
     | Some (n, s') =>
         if Z_lt_dec n maxiter then
           match admm_body s' with
           | Continue s'' => Some ((n + 1)%Z, s'')
           | Break _ => None
           end
         else None
     | None => None
     end).
  rewrite IH.
  destruct (Z_lt_dec niter maxiter); [ | reflexivity ].
  destruct (admm_body s); reflexivity.
Qed.

Lemma breaks_at_S (k : nat) (niter : Z) (s : vars) :
  breaks_at (S k) niter s =
  if Z_lt_dec niter maxiter then
    match admm_body s with
    | Continue s' => breaks_at k (niter + 1) s'
    | Break _ => false
    end
  else false.
Proof.
  unfold breaks_at. rewrite loop_head_shift.
  destruct (Z_lt_dec niter maxiter); [ | reflexivity ].
  destruct (admm_body s); reflexivity.
Qed.

(** A break in the (k+1)-th iteration ends the loop with the counter at
    [niter + k + 1]. *)
Lemma breaks_at_count (k : nat) (niter : Z) (s : vars) :
  breaks_at k niter s = true ->
  fst (admm_loop niter s) = (niter + Z.of_nat k + 1)%Z /\
  (niter + Z.of_nat k < maxiter)%Z.
Proof.
  unfold breaks_at.
  destruct (loop_head k niter s) as [[n s1] | ] eqn:Hhead; [ | discriminate ].
  destruct (Z_lt_dec n maxiter) as [Hlt | ]; [ | discriminate ].
  intros Hbreak. rewrite (loop_head_resume Hhead), admm_loop_step.
  destruct (Z_lt_dec n maxiter); [ | contradiction ].
  destruct (admm_body s1); [ discriminate | ].
  rewrite (loop_head_niter Hhead) in *. simpl. lia.
Qed.

(** The loop ends by a break, or it runs until the counter reaches
    [maxiter]. *)
Lemma admm_loop_exit (niter : Z) (s : vars) :
  (exists k : nat, breaks_at k niter s = true) \/
  ((forall k : nat, breaks_at k niter s = false) /\
   fst (admm_loop niter s) = Z.max niter maxiter).
Proof.
  apply (admm_loop_induction
           (P := fun niter s r =>
              (exists k : nat, breaks_at k niter s = true) \/
              ((forall k : nat, breaks_at k niter s = false) /\
               fst r = Z.max niter maxiter))); clear niter s.
  - intros niter s Hge. right. split; [ | simpl; lia ].
    intros [ | k].
    + unfold breaks_at. simpl. destruct (Z_lt_dec niter maxiter); [ lia | reflexivity ].
    + rewrite breaks_at_S. destruct (Z_lt_dec niter maxiter); [ lia | reflexivity ].
  - intros niter s s' Hlt Hbody. left. exists 0%nat.
    unfold breaks_at. simpl.
    destruct (Z_lt_dec niter maxiter); [ | contradiction ].
    rewrite Hbody. reflexivity.
  - intros niter s s' Hlt Hbody [[k Hk] | [Hnone Hcount]].
    + left. exists (S k). rewrite breaks_at_S.
      destruct (Z_lt_dec niter maxiter); [ | contradiction ].
      rewrite Hbody. exact Hk.
    + right. split; [ | rewrite Hcount; lia ].
      intros [ | k].
      * unfold breaks_at. simpl.
        destruct (Z_lt_dec niter maxiter); [ | reflexivity ].
        rewrite Hbody. reflexivity.
      * rewrite breaks_at_S.
        destruct (Z_lt_dec niter maxiter); [ | reflexivity ].
        rewrite Hbody. apply Hnone.
Qed.

(** C4, as the code has it.  The returned count is never negative and
    never above [maxiter] when [maxiter >= 0] (it is 0 when [maxiter] is
    negative).  A break in the (k+1)-th iteration returns [k + 1]; a
    call in which no iteration breaks returns [max 0 maxiter].  So a
    count below [maxiter] means that the last executed iteration passed
    the convergence test, and a count equal to [maxiter] means that no
    iteration before the [maxiter]-th passed it: the budget was used up
    without convergence, or the test was passed in the [maxiter]-th
    iteration itself. *)
Theorem admm_count_bounds (f : F) (g : G) (z u : mat) (admm_penalty : float) :
  let s0 := Vars f g z u admm_penalty in
  let count := fst (fst (fst (admm f g z u admm_penalty))) in
  (0 <= count <= Z.max 0 maxiter)%Z /\
  (forall k : nat, breaks_at k 0 s0 = true -> count = (Z.of_nat k + 1)%Z) /\
  ((forall k : nat, breaks_at k 0 s0 = false) -> count = Z.max 0 maxiter) /\
  ((count < maxiter)%Z -> breaks_at (Z.to_nat (count - 1)) 0 s0 = true) /\
  (count = maxiter ->
   forall k : nat, (Z.of_nat k + 1 < maxiter)%Z -> breaks_at k 0 s0 = false).
Proof.
  intros s0 count.
  assert (Hcount : count = fst (admm_loop 0 s0)).
  { unfold count, admm. fold s0. destruct (admm_loop 0 s0). reflexivity. }
  assert (Hbreak : forall k : nat, breaks_at k 0 s0 = true ->
                     count = (Z.of_nat k + 1)%Z /\ (Z.of_nat k < maxiter)%Z).
  { intros k Hk. destruct (breaks_at_count Hk) as [H1 H2]. rewrite Hcount. lia. }
  destruct (admm_loop_exit 0 s0) as [[k Hk] | [Hnone Hmax]].
  - destruct (Hbreak k Hk) as [Hc Hlt]. repeat split.
    + lia.
    + lia.
    + intros j Hj. apply (Hbreak j Hj).
    + intros Hall. rewrite (Hall k) in Hk. discriminate.
    + intros _. replace (Z.to_nat (count - 1)) with k by lia. exact Hk.
    + intros Heq j Hj. destruct (breaks_at j 0 s0) eqn:Hbj; [ | reflexivity ].
      destruct (Hbreak j Hbj). lia.
  - repeat split.
    + lia.
    + lia.
    + intros j Hj. rewrite (Hnone j) in Hj. discriminate.
    + intros _. lia.
    + intros Hlt. lia.
    + intros _ j _. apply Hnone.
Qed.

(** ** The penalty *)

(** C3. In an executed iteration that does not pass the convergence
    test, the variables of the next iteration are those of lines 61-65
    with the penalty adjusted: if [rr > 10 * ss] the penalty is
    multiplied by [admm_adjust] and [u] divided by it; if
    [ss > 10 * rr] the penalty is divided by [admm_adjust] and [u]
    multiplied by it; if [10 * ss >= rr] and [10 * rr >= ss] both are
    left as they are.  ([rr] is a Frobenius norm, hence not negative,
    which keeps the first two cases apart.) *)
Theorem admm_penalty_adjustment (s0 : vars) (k : nat) (niter : Z) (s : vars) :
  norm_nonneg A ->
  loop_head k 0 s0 = Some (niter, s) ->
  (niter < maxiter)%Z ->
  converged (admm_update s) = false ->
  let it := admm_update s in
  let s' := penalty_adjust (v_penalty s) it in
  loop_head (S k) 0 s0 = Some ((niter + 1)%Z, s') /\
  v_z s' = it_z it /\
  ((it_rr it >? 10 * it_ss it)%float = true ->
   v_penalty s' = (v_penalty s * admm_adjust)%float /\
   v_u s' = (it_u it / admm_adjust)%mat) /\
  ((it_ss it >? 10 * it_rr it)%float = true ->
   v_penalty s' = (v_penalty s / admm_adjust)%float /\
   v_u s' = (it_u it * admm_adjust)%mat) /\
  ((10 * it_ss it >=? it_rr it)%float = true ->
   (10 * it_rr it >=? it_ss it)%float = true ->
   v_penalty s' = v_penalty s /\ v_u s' = it_u it).
Proof.
  intros Hnorm Hhead Hlt Hconv it s'.
  assert (Hrr : (it_rr it <? 0)%float = false).
  { unfold it. destruct (admm_update_spec s) as (_ & _ & _ & _ & -> & _).
    apply Hnorm. }
  split; [ | split; [ | split; [ | split ] ] ].
  - simpl. rewrite Hhead.
    destruct (Z_lt_dec niter maxiter); [ | contradiction ].
    unfold admm_body. rewrite Hconv. reflexivity.
  - unfold s', penalty_adjust.
    destruct (it_rr it >? 10 * it_ss it)%float; [ reflexivity | ].
    destruct (it_ss it >? 10 * it_rr it)%float; reflexivity.
  - intros Hup. unfold s', penalty_adjust. rewrite Hup. split; reflexivity.
  - intros Hdown. unfold s', penalty_adjust.
    destruct (it_rr it >? 10 * it_ss it)%float eqn:Hup.
    + exfalso. exact (float_ten_times_exclusive Hrr Hup Hdown).
    + rewrite Hdown. split; reflexivity.
  - intros H1 H2. unfold s', penalty_adjust.
    unfold geb in H1, H2. unfold gtb.
    rewrite (float_le_not_gt H1), (float_le_not_gt H2). split; reflexivity.
Qed.

Lemma penalty_adjust_nonneg (penalty : float) (it : iterate) :
  (1 <? admm_adjust)%float = true ->
  (admm_adjust <? infinity)%float = true ->
  (0 <=? penalty)%float = true ->
  (0 <=? v_penalty (penalty_adjust penalty it))%float = true.
Proof.
  intros H1 Hinf Hp. unfold penalty_adjust.
  destruct (it_rr it >? 10 * it_ss it)%float; simpl.
  - apply float_mul_nonneg; assumption.
  - destruct (it_ss it >? 10 * it_rr it)%float; simpl.
    + apply float_div_nonneg; assumption.
    + assumption.
Qed.

Lemma admm_body_penalty_nonneg (s : vars) :
  (1 <? admm_adjust)%float = true ->
  (admm_adjust <? infinity)%float = true ->
  (0 <=? v_penalty s)%float = true ->
  (0 <=? v_penalty (control_state (admm_body s)))%float = true.
Proof.
  intros H1 Hinf Hp. unfold admm_body.
  destruct (converged (admm_update s)); simpl.
  - assumption.
  - apply penalty_adjust_nonneg; assumption.
Qed.

(** C7, as the code has it.  With [admm_penalty > 0] at entry and a
    finite [admm_adjust > 1], the penalty is never negative and never
    NaN: it is [>= 0] at the head of every iteration and at return.  (It
    can become exactly 0, when a division by [admm_adjust] underflows.) *)
Theorem admm_penalty_never_negative
  (f : F) (g : G) (z u : mat) (admm_penalty : float) :
  (0 <? admm_penalty)%float = true ->
  (1 <? admm_adjust)%float = true ->
  (admm_adjust <? infinity)%float = true ->
  (forall (k : nat) (niter : Z) (s : vars),
     loop_head k 0 (Vars f g z u admm_penalty) = Some (niter, s) ->
     (0 <=? v_penalty s)%float = true) /\
  (0 <=? snd (admm f g z u admm_penalty))%float = true.
Proof.
  intros Hpos H1 Hinf. apply float_lt_le in Hpos.
  split.
  - induction k as [ | k IH]; intros niter s; simpl.
    + intros [= <- <-]. exact Hpos.
    + destruct (loop_head k 0 (Vars f g z u admm_penalty)) as [[n1 s1] | ];
        [ | discriminate ].
      destruct (Z_lt_dec n1 maxiter); [ | discriminate ].
      pose proof (admm_body_penalty_nonneg H1 Hinf (IH n1 s1 eq_refl)) as Hb.
      destruct (admm_body s1) as [s2 | ]; [ | discriminate ].
      intros [= <- <-]. exact Hb.
  - unfold admm.
    assert (Hloop : forall niter s, (0 <=? v_penalty s)%float = true ->
                      (0 <=? v_penalty (snd (admm_loop niter s)))%float = true).
    { intros niter s.
      apply (admm_loop_induction
               (P := fun niter s r =>
                  (0 <=? v_penalty s)%float = true ->
                  (0 <=? v_penalty (snd r))%float = true)); clear niter s.
      - intros niter s _ Hs. exact Hs.
      - intros niter s s' _ Hbody Hs.
        pose proof (admm_body_penalty_nonneg H1 Hinf Hs) as Hb.
        rewrite Hbody in Hb. exact Hb.
      - intros niter s s' _ Hbody IH Hs. apply IH.
        pose proof (admm_body_penalty_nonneg H1 Hinf Hs) as Hb.
        rewrite Hbody in Hb. exact Hb. }
    specialize (Hloop 0%Z (Vars f g z u admm_penalty) Hpos).
    destruct (admm_loop 0 (Vars f g z u admm_penalty)) as [n s]. exact Hloop.
Qed.

(** ** The instrumented body against the plain one *)

(** One pass through the body of [admm_benchmark]: the control outcome
    and the variables are those of the body of [admm]; the surroundings
    gain one error, one duration, two clock readings and the events of
    the iteration. *)
Lemma admm_benchmark_body_spec (niter : Z) (s : vars) (w : world) :
  admm_benchmark_body niter s w =
  (admm_body s,
   World (w_errs w ++ [recorded_error (control_state (admm_body s))])
         (w_times w ++ [recorded_time (w_clock w)])
         (S (S (w_clock w)))
         (w_trace w ++ iteration_events niter (w_clock w) (control_state (admm_body s)))).
Proof.
  unfold admm_benchmark_body, admm_body, admm_update, converged, penalty_adjust,
    iteration_events, recorded_error, recorded_time,
    call_projection, call_selection, eigs_sym, push_back_times, push_back_errs,
    get_wall_time, Rcout_iter, log, bind, ret.
  destruct w as [errs times c tr].
  destruct (0 <? verbose)%Z; simpl;
    destruct (projection (v_projection s) (v_z s - v_u s + input / v_penalty s)%mat)
      as [f x]; simpl;
    destruct (selection (v_selection s) (x + v_u s)%mat (1 / v_penalty s)%float)
      as [g z]; simpl;
    destruct ((norm_fro (x - z)%mat <? tolerance)%float &&
              (v_penalty s * norm_fro (z - v_z s)%mat <? tolerance)%float); simpl;
    repeat rewrite <- app_assoc; simpl; try reflexivity;
    destruct (norm_fro (x - z)%mat >? 10 * (v_penalty s * norm_fro (z - v_z s)%mat))%float;
    simpl; try reflexivity;
    destruct (v_penalty s * norm_fro (z - v_z s)%mat >? 10 * norm_fro (x - z)%mat)%float;
    reflexivity.
Qed.

(** Induction along the iterations of [admm_benchmark_loop]. *)
Lemma admm_benchmark_loop_induction (P : Z -> vars -> world -> Z * vars * world -> Prop) :
  (forall niter s w, (maxiter <= niter)%Z -> P niter s w (niter, s, w)) ->
  (forall niter s w s' w', (niter < maxiter)%Z ->
     admm_benchmark_body niter s w = (Break s', w') ->
     P niter s w ((niter + 1)%Z, s', w')) ->
  (forall niter s w s' w', (niter < maxiter)%Z ->
     admm_benchmark_body niter s w = (Continue s', w') ->
     P (niter + 1)%Z s' w' (admm_benchmark_loop (niter + 1) s' w') ->
     P niter s w (admm_benchmark_loop (niter + 1) s' w')) ->
  forall niter s w, P niter s w (admm_benchmark_loop niter s w).
Proof.
  intros Hexit Hbreak Hcont niter s w.
  remember (Z.to_nat (maxiter - niter)) as fuel eqn:Hfuel.
  revert niter s w Hfuel.
  induction fuel as [fuel IH] using lt_wf_ind; intros niter s w Hfuel.
  rewrite admm_benchmark_loop_step.
  destruct (Z_lt_dec niter maxiter) as [Hlt | Hge].
  - destruct (admm_benchmark_body niter s w) as [[s' | s'] w'] eqn:Hbody.
    + apply Hcont; [ assumption | assumption | ].
      apply (IH (Z.to_nat (maxiter - (niter + 1)))); [ lia | reflexivity ].
    + apply Hbreak; assumption.
  - apply Hexit; lia.
Qed.

(** The two loops compute the same counter and variables. *)
Lemma admm_benchmark_loop_admm_loop (niter : Z) (s : vars) (w : world) :
  fst (admm_benchmark_loop niter s w) = admm_loop niter s.
Proof.
  apply (admm_benchmark_loop_induction
           (P := fun niter s w r => fst r = admm_loop niter s)); clear niter s w.
  - intros niter s w Hge. rewrite admm_loop_step.
    destruct (Z_lt_dec niter maxiter); [ lia | reflexivity ].
  - intros niter s w s' w' Hlt Hbody. rewrite admm_benchmark_body_spec in Hbody.
    injection Hbody as Hbody _. rewrite admm_loop_step.
    destruct (Z_lt_dec niter maxiter); [ | contradiction ].
    rewrite Hbody. reflexivity.
  - intros niter s w s' w' Hlt Hbody IH. rewrite admm_benchmark_body_spec in Hbody.
    injection Hbody as Hbody _. rewrite (admm_loop_step niter s).
    destruct (Z_lt_dec niter maxiter); [ | contradiction ].
    rewrite Hbody. exact IH.
Qed.

(** C5. [admm_benchmark] returns the iteration count of [admm] and
    leaves the same [z], [u] and [admm_penalty], for all functors,
    inputs and starting values and whatever its surroundings are. *)
Theorem admm_benchmark_same_result
  (f : F) (g : G) (z u : mat) (admm_penalty : float) (w : world) :
  fst (admm_benchmark f g z u admm_penalty w) = admm f g z u admm_penalty.
Proof.
  unfold admm_benchmark, admm.
  rewrite <- (admm_benchmark_loop_admm_loop 0 (Vars f g z u admm_penalty) w).
  destruct (admm_benchmark_loop 0 (Vars f g z u admm_penalty) w) as [[n s] w'].
  reflexivity.
Qed.

(** ** The histories of [admm_benchmark] *)

Lemma recorded_times_S (c n : nat) :
  recorded_times c (S n) = recorded_time c :: recorded_times (S (S c)) n.
Proof.
  unfold recorded_times. simpl seq. simpl map.
  rewrite Nat.add_0_r. f_equal.
  rewrite <- seq_shift, map_map.
  apply map_ext. intros i. f_equal. lia.
Qed.

Lemma recorded_times_length (c n : nat) : length (recorded_times c n) = n.
Proof. unfold recorded_times. rewrite length_map, length_seq. reflexivity. Qed.

(** The loop entered at [niter] runs [n - niter] iterations when it
    returns [n]; each of them appends one duration, built from its own
    two clock readings, and one error. *)
Lemma admm_benchmark_loop_world (niter : Z) (s : vars) (w : world) :
  let r := admm_benchmark_loop niter s w in
  let done := Z.to_nat (fst (fst r) - niter) in
  (niter <= fst (fst r))%Z /\
  w_times (snd r) = w_times w ++ recorded_times (w_clock w) done /\
  length (w_errs (snd r)) = (length (w_errs w) + done)%nat /\
  firstn (length (w_errs w)) (w_errs (snd r)) = w_errs w /\
  w_clock (snd r) = (w_clock w + 2 * done)%nat.
Proof.
  apply (admm_benchmark_loop_induction
           (P := fun niter s w r =>
              let done := Z.to_nat (fst (fst r) - niter) in
              (niter <= fst (fst r))%Z /\
              w_times (snd r) = w_times w ++ recorded_times (w_clock w) done /\
              length (w_errs (snd r)) = (length (w_errs w) + done)%nat /\
              firstn (length (w_errs w)) (w_errs (snd r)) = w_errs w /\
              w_clock (snd r) = (w_clock w + 2 * done)%nat)); clear niter s w.
  - intros niter s w _. simpl. rewrite Z.sub_diag. simpl.
    rewrite app_nil_r, firstn_all. repeat split; lia.
  - intros niter s w s' w' _ Hbody. rewrite admm_benchmark_body_spec in Hbody.
    injection Hbody as _ <-. simpl.
    replace (niter + 1 - niter)%Z with 1%Z by lia. simpl.
    rewrite length_app, firstn_app, firstn_all, Nat.sub_diag. simpl.
    change (Pos.to_nat 1) with 1%nat.
    rewrite app_nil_r. unfold recorded_times. simpl.
    rewrite Nat.add_0_r. repeat split; lia.
  - intros niter s w s' w' _ Hbody. rewrite admm_benchmark_body_spec in Hbody.
    injection Hbody as _ <-.
    destruct (admm_benchmark_loop (niter + 1) s' _) as [[n s''] w'']. simpl.
    intros (Hle & Htimes & Herrs & Hfirst & Hclock).
    replace (Z.to_nat (n - niter)) with (S (Z.to_nat (n - (niter + 1)))) by lia.
    rewrite recorded_times_S, Htimes, <- app_assoc. simpl.
    rewrite length_app in Herrs, Hfirst. simpl in Herrs.
    repeat split; try lia.
    simpl length in Hfirst.
    assert (Hcut : firstn (length (w_errs w))
                     (firstn (length (w_errs w) + 1) (w_errs w'')) =
                   firstn (length (w_errs w)) (w_errs w'')).
    { rewrite firstn_firstn, Nat.min_l by lia. reflexivity. }
    rewrite <- Hcut, Hfirst, firstn_app, firstn_all, Nat.sub_diag. simpl.
    apply app_nil_r.
Qed.

(** C6, as the code has it.  Every executed iteration of
    [admm_benchmark], the converging one included, appends exactly one
    entry to [times] and one to [errs]; the vectors are the caller's and
    are not cleared, so each grows by the returned count: its length
    after the call is its length before plus the count, and the old
    entries are kept in front.  (The lengths equal the count when the
    caller passes empty vectors.) *)
Theorem admm_benchmark_histories_grow_by_count
  (f : F) (g : G) (z u : mat) (admm_penalty : float) (w : world) :
  let r := admm_benchmark f g z u admm_penalty w in
  let count := fst (fst (fst (fst r))) in
  (0 <= count)%Z /\
  Z.of_nat (length (w_times (snd r))) = (Z.of_nat (length (w_times w)) + count)%Z /\
  Z.of_nat (length (w_errs (snd r))) = (Z.of_nat (length (w_errs w)) + count)%Z /\
  firstn (length (w_times w)) (w_times (snd r)) = w_times w /\
  firstn (length (w_errs w)) (w_errs (snd r)) = w_errs w.
Proof.
  unfold admm_benchmark.
  pose proof (admm_benchmark_loop_world 0 (Vars f g z u admm_penalty) w) as H.
  destruct (admm_benchmark_loop 0 (Vars f g z u admm_penalty) w) as [[n s] w'].
  simpl in *. destruct H as (Hle & Htimes & Herrs & Hfirst & _).
  rewrite Z.sub_0_r in *.
  repeat split; try assumption.
  - rewrite Htimes, length_app, recorded_times_length. lia.
  - lia.
  - rewrite Htimes, firstn_app, firstn_all, Nat.sub_diag. simpl. apply app_nil_r.
Qed.

(** C10. In every pass through the body of [admm_benchmark], converging
    or not, the duration pushed on [times] is the second clock reading
    of the pass minus the first; the first is taken before the update of
    [z] and [u] (only the optional printing of [niter] precedes it), the
    second before the eigensolver runs and before the error is pushed.
    Over a whole call the recorded durations are, in order, the
    differences of consecutive pairs of clock readings. *)
Theorem admm_benchmark_times_exclude_eigs :
  (forall (niter : Z) (s : vars) (w : world),
     let w' := snd (admm_benchmark_body niter s w) in
     let c := w_clock w in
     w_times w' = w_times w ++ [(wall_time (S c) - wall_time c)%float] /\
     w_trace w' =
       w_trace w ++
       (if (0 <? verbose)%Z then [EvPrint niter] else []) ++
       [EvClock c; EvProjection; EvSelection; EvClock (S c);
        EvPushTime (wall_time (S c) - wall_time c)%float;
        EvEigs;
        EvPushErr (recorded_error (control_state (admm_body s)))]) /\
  (forall (f : F) (g : G) (z u : mat) (admm_penalty : float) (w : world),
     let r := admm_benchmark f g z u admm_penalty w in
     let count := Z.to_nat (fst (fst (fst (fst r)))) in
     w_times (snd r) =
       w_times w ++
       map (fun i => (wall_time (S (w_clock w + 2 * i)) -
                      wall_time (w_clock w + 2 * i))%float) (seq 0 count)).
Proof.
  split.
  - intros niter s w. rewrite admm_benchmark_body_spec. simpl.
    split; reflexivity.
  - intros f g z u admm_penalty w. unfold admm_benchmark.
    pose proof (admm_benchmark_loop_world 0 (Vars f g z u admm_penalty) w) as H.
    destruct (admm_benchmark_loop 0 (Vars f g z u admm_penalty) w) as [[n s] w'].
    simpl in *. destruct H as (_ & Htimes & _).
    rewrite Z.sub_0_r in Htimes. exact Htimes.
Qed.

(** * Further properties of [admm] *)

(** ** Tolerances that cannot be met, NaN residuals *)

Lemma float_not_neg_le_left (r y : float) :
  (r <? 0)%float = false -> (r <? y)%float = true -> (0 <=? r)%float = true.
Proof.
  intros Hneg Hy. rewrite ltb_spec, SFltb_key in Hy. destruct Hy as (Hr & _ & _).
  destruct (0 <=? r)%float eqn:Hle; [ reflexivity | exfalso ].
  assert (Hlt : (r <? 0)%float = true); [ | congruence ].
  rewrite ltb_spec, SFltb_key. repeat split; try assumption.
  destruct (Prim2SF r) as [sg | [ | ] | | [ | ] m e] eqn:E; try discriminate;
    rewrite leb_spec, E in Hle; try discriminate; simpl; lia.
Qed.

(** The convergence test can only be passed with a tolerance above
    zero: [rr] is a norm. *)
Lemma converged_tolerance_positive (s : vars) :
  norm_nonneg A ->
  converged (admm_update s) = true -> (0 <? tolerance)%float = true.
Proof.
  intros Hnorm Hconv. unfold converged in Hconv.
  apply andb_prop in Hconv. destruct Hconv as [Hrr _].
  destruct (admm_update_spec s) as (_ & _ & _ & _ & Hr & _).
  rewrite Hr in Hrr.
  apply float_le_lt_trans with (spec_r s); [ | assumption ].
  apply (float_not_neg_le_left (y := tolerance)); [ apply Hnorm | assumption ].
Qed.

Lemma is_break_admm_body (s : vars) :
  is_break (admm_body s) = converged (admm_update s).
Proof. unfold admm_body. destruct (converged (admm_update s)); reflexivity. Qed.

(** X3. A tolerance that is not above zero (zero, negative or NaN) is
    never met: no iteration takes the [break], and the call runs its
    whole budget and returns [max 0 maxiter]. *)
Theorem admm_tolerance_not_positive_never_converges
  (f : F) (g : G) (z u : mat) (admm_penalty : float) :
  norm_nonneg A ->
  (0 <? tolerance)%float = false ->
  (forall k : nat, breaks_at k 0 (Vars f g z u admm_penalty) = false) /\
  fst (fst (fst (admm f g z u admm_penalty))) = Z.max 0 maxiter.
Proof.
  intros Hnorm Htol.
  assert (Hnone : forall (k : nat) (niter : Z) (s : vars),
            breaks_at k niter s = false).
  { intros k niter s. unfold breaks_at.
    destruct (loop_head k niter s) as [[n s1] | ]; [ | reflexivity ].
    destruct (Z_lt_dec n maxiter); [ | reflexivity ].
    rewrite is_break_admm_body.
    destruct (converged (admm_update s1)) eqn:Hc; [ | reflexivity ].
    rewrite (converged_tolerance_positive Hnorm Hc) in Htol. discriminate. }
  split; [ intros k; apply Hnone | ].
  unfold admm.
  destruct (admm_loop_exit 0 (Vars f g z u admm_penalty)) as [[k Hk] | [_ Hcount]].
  - rewrite Hnone in Hk. discriminate.
  - destruct (admm_loop 0 (Vars f g z u admm_penalty)) as [n s]. exact Hcount.
Qed.

Lemma SFcompare_refl (x : spec_float) :
  sf_is_nan x = false -> SFcompare x x = Some Eq.
Proof.
  destruct x as [sg | [ | ] | | [ | ] m e]; try discriminate; intros _; simpl;
    try reflexivity; rewrite Z.compare_refl;
    change (Pos.compare_cont Eq m m) with (Pos.compare m m);
    rewrite Pos.compare_refl; reflexivity.
Qed.

Lemma is_nan_Prim2SF (x : float) : is_nan x = true -> Prim2SF x = S754_nan.
Proof.
  unfold is_nan. rewrite eqb_spec. unfold SFeqb. intros H.
  destruct (sf_is_nan (Prim2SF x)) eqn:Hn.
  - destruct (Prim2SF x); try discriminate. reflexivity.
  - rewrite (SFcompare_refl Hn) in H. discriminate.
Qed.

Lemma float_nan_ltb_l (x y : float) : is_nan x = true -> (x <? y)%float = false.
Proof.
  intros H. rewrite ltb_spec, (is_nan_Prim2SF H). reflexivity.
Qed.

Lemma float_nan_ltb_r (x y : float) : is_nan y = true -> (x <? y)%float = false.
Proof.
  intros H. rewrite ltb_spec, (is_nan_Prim2SF H).
  destruct (Prim2SF x) as [sg | [ | ] | | [ | ] m e]; reflexivity.
Qed.

Lemma float_nan_ten_times (x : float) : is_nan x = true -> is_nan (10 * x)%float = true.
Proof.
  intros H. unfold is_nan. rewrite eqb_spec, mul_spec, (is_nan_Prim2SF H), Prim2SF_ten.
  reflexivity.
Qed.

(** X4. An iteration whose [rr] or [ss] is NaN (a functor or the input
    has produced a non-finite value) neither passes the convergence test
    nor adjusts the penalty: the loop goes on with the [z] and [u] of
    lines 61-65 and the penalty it had. *)
Theorem admm_nan_residual_continues (s : vars) :
  is_nan (it_rr (admm_update s)) = true \/ is_nan (it_ss (admm_update s)) = true ->
  admm_body s =
  Continue (Vars (it_projection (admm_update s)) (it_selection (admm_update s))
                 (it_z (admm_update s)) (it_u (admm_update s)) (v_penalty s)).
Proof.
  intros Hnan. unfold admm_body, converged, penalty_adjust, gtb.
  destruct Hnan as [Hr | Hs].
  - rewrite (float_nan_ltb_l tolerance Hr). simpl.
    rewrite (float_nan_ltb_r _ Hr).
    rewrite (float_nan_ltb_l _ (float_nan_ten_times Hr)). reflexivity.
  - rewrite (float_nan_ltb_l tolerance Hs), andb_false_r.
    rewrite (float_nan_ltb_l _ (float_nan_ten_times Hs)).
    rewrite (float_nan_ltb_r _ Hs). reflexivity.
Qed.

(** ** What a count below the budget tells *)

(** X8. When [admm] returns a count below [maxiter], its last
    iteration passed the convergence test: the returned [z] and [u] are
    those of that iteration, whose [rr] and [ss] are below the
    tolerance, and the returned penalty is the one that iteration
    started with. *)
Theorem admm_count_below_budget_converged
  (f : F) (g : G) (z u : mat) (admm_penalty : float) :
  let r := admm f g z u admm_penalty in
  let count := fst (fst (fst r)) in
  (count < maxiter)%Z ->
  exists s : vars,
    loop_head (Z.to_nat (count - 1)) 0 (Vars f g z u admm_penalty)
      = Some ((count - 1)%Z, s) /\
    (1 <= count)%Z /\
    (it_rr (admm_update s) <? tolerance)%float = true /\
    (it_ss (admm_update s) <? tolerance)%float = true /\
    r = (count, it_z (admm_update s), it_u (admm_update s), v_penalty s).
Proof.
  intros r count Hlt. unfold count, r, admm in *.
  destruct (admm_loop_exit 0 (Vars f g z u admm_penalty)) as [[k Hk] | [_ Hmax]].
  - unfold breaks_at in Hk.
    destruct (loop_head k 0 (Vars f g z u admm_penalty)) as [[n s] | ] eqn:Hhead;
      [ | discriminate ].
    destruct (Z_lt_dec n maxiter) as [Hn | ]; [ | discriminate ].
    rewrite is_break_admm_body in Hk.
    pose proof (loop_head_niter Hhead) as Hnk.
    rewrite (loop_head_resume Hhead), admm_loop_step in *.
    destruct (Z_lt_dec n maxiter); [ | contradiction ].
    unfold admm_body in *. rewrite Hk in *. simpl in *.
    unfold converged in Hk. apply andb_prop in Hk. destruct Hk as [Hr Hs].
    exists s. subst n. simpl.
    replace (Z.to_nat (Z.of_nat k + 1 - 1)) with k by lia.
    replace (Z.of_nat k + 1 - 1)%Z with (Z.of_nat k) by lia.
    repeat split; try assumption; try lia.
  - destruct (admm_loop 0 (Vars f g z u admm_penalty)) as [n s]. simpl in *. lia.
Qed.

(** * Further properties of [admm_benchmark] *)

(** X9. With [maxiter <= 0], [admm_benchmark] returns 0 and touches
    nothing: [z], [u], the penalty, both history vectors are as they
    were, the clock is not read and nothing is printed. *)
Theorem admm_benchmark_maxiter_nonpositive
  (f : F) (g : G) (z u : mat) (admm_penalty : float) (w : world) :
  (maxiter <= 0)%Z ->
  admm_benchmark f g z u admm_penalty w = (0%Z, z, u, admm_penalty, w).
Proof.
  intros Hmax. unfold admm_benchmark. rewrite admm_benchmark_loop_step.
  destruct (Z_lt_dec 0 maxiter); [ lia | reflexivity ].
Qed.

Lemma count_events_app (p : event -> bool) (a b : list event) :
  count_events p (a ++ b) = (count_events p a + count_events p b)%nat.
Proof. unfold count_events. rewrite filter_app, length_app. reflexivity. Qed.

Lemma printed_app (a b : list event) : printed (a ++ b) = printed a ++ printed b.
Proof. unfold printed. apply flat_map_app. Qed.

(** The events of one iteration, counted. *)
Lemma iteration_events_counts (niter : Z) (c : nat) (s' : vars) :
  count_events is_clock (iteration_events niter c s') = 2%nat /\
  count_events is_projection (iteration_events niter c s') = 1%nat /\
  count_events is_selection (iteration_events niter c s') = 1%nat /\
  count_events is_eigs (iteration_events niter c s') = 1%nat /\
  printed (iteration_events niter c s') = if (0 <? verbose)%Z then [niter] else [].
Proof.
  unfold iteration_events. destruct (0 <? verbose)%Z; repeat split.
Qed.

(** The indices [niter], [niter + 1], ... of [n] consecutive iterations. *)
Lemma indices_S (niter : Z) (n : nat) :
  map (fun i => (niter + Z.of_nat i)%Z) (seq 0 (S n)) =
  niter :: map (fun i => (niter + 1 + Z.of_nat i)%Z) (seq 0 n).
Proof.
  simpl seq. simpl map. rewrite Z.add_0_r. f_equal.
  rewrite <- seq_shift, map_map. apply map_ext. intros i. lia.
Qed.

(** The log of the loop entered at [niter]. *)
Lemma admm_benchmark_loop_log (niter : Z) (s : vars) (w : world) :
  let r := admm_benchmark_loop niter s w in
  let done := Z.to_nat (fst (fst r) - niter) in
  count_events is_clock (w_trace (snd r)) =
    (count_events is_clock (w_trace w) + 2 * done)%nat /\
  count_events is_projection (w_trace (snd r)) =
    (count_events is_projection (w_trace w) + done)%nat /\
  count_events is_selection (w_trace (snd r)) =
    (count_events is_selection (w_trace w) + done)%nat /\
  count_events is_eigs (w_trace (snd r)) =
    (count_events is_eigs (w_trace w) + done)%nat /\
  printed (w_trace (snd r)) =
    printed (w_trace w) ++
    (if (0 <? verbose)%Z
     then map (fun i => (niter + Z.of_nat i)%Z) (seq 0 done) else []).
Proof.
  apply (admm_benchmark_loop_induction
           (P := fun niter s w r =>
              let done := Z.to_nat (fst (fst r) - niter) in
              count_events is_clock (w_trace (snd r)) =
                (count_events is_clock (w_trace w) + 2 * done)%nat /\
              count_events is_projection (w_trace (snd r)) =
                (count_events is_projection (w_trace w) + done)%nat /\
              count_events is_selection (w_trace (snd r)) =
                (count_events is_selection (w_trace w) + done)%nat /\
              count_events is_eigs (w_trace (snd r)) =
                (count_events is_eigs (w_trace w) + done)%nat /\
              printed (w_trace (snd r)) =
                printed (w_trace w) ++
                (if (0 <? verbose)%Z
                 then map (fun i => (niter + Z.of_nat i)%Z) (seq 0 done) else [])));
    clear niter s w.
  - intros niter s w _. simpl. rewrite Z.sub_diag. simpl.
    destruct (0 <? verbose)%Z; rewrite app_nil_r; repeat split; lia.
  - intros niter s w s' w' _ Hbody. rewrite admm_benchmark_body_spec in Hbody.
    injection Hbody as _ <-. simpl.
    replace (niter + 1 - niter)%Z with 1%Z by lia.
    change (Z.to_nat 1) with 1%nat.
    rewrite !count_events_app, printed_app.
    destruct (iteration_events_counts niter (w_clock w) (control_state (admm_body s)))
      as (-> & -> & -> & -> & ->).
    simpl. rewrite Z.add_0_r. repeat split.
  - intros niter s w s' w' _ Hbody. rewrite admm_benchmark_body_spec in Hbody.
    injection Hbody as _ <-.
    pose proof (admm_benchmark_loop_world (niter + 1) s'
                  (World (w_errs w ++ [recorded_error (control_state (admm_body s))])
                         (w_times w ++ [recorded_time (w_clock w)])
                         (S (S (w_clock w)))
                         (w_trace w ++ iteration_events niter (w_clock w)
                                         (control_state (admm_body s))))) as Hw.
    destruct (admm_benchmark_loop (niter + 1) s' _) as [[n s''] w'']. simpl in *.
    destruct Hw as (Hle & _).
    intros (Hc & Hp & Hs & He & Hpr).
    replace (Z.to_nat (n - niter)) with (S (Z.to_nat (n - (niter + 1)))) by lia.
    rewrite !count_events_app in *. rewrite printed_app in Hpr.
    destruct (iteration_events_counts niter (w_clock w) (control_state (admm_body s)))
      as (E1 & E2 & E3 & E4 & E5).
    rewrite E1 in Hc. rewrite E2 in Hp. rewrite E3 in Hs. rewrite E4 in He.
    rewrite E5 in Hpr. rewrite Hpr, indices_S.
    repeat split; try lia.
    destruct (0 <? verbose)%Z; rewrite <- app_assoc; reflexivity.
Qed.

(** X5. Every iteration of [admm_benchmark] reads the clock exactly
    twice and calls the projection functor, the selection functor and
    the eigensolver exactly once each: over a call that returns [count]
    the log gains [2 * count] clock readings and [count] calls of each
    of the three. *)
Theorem admm_benchmark_calls_per_iteration
  (f : F) (g : G) (z u : mat) (admm_penalty : float) (w : world) :
  let r := admm_benchmark f g z u admm_penalty w in
  let count := Z.to_nat (fst (fst (fst (fst r)))) in
  w_clock (snd r) = (w_clock w + 2 * count)%nat /\
  count_events is_clock (w_trace (snd r)) =
    (count_events is_clock (w_trace w) + 2 * count)%nat /\
  count_events is_projection (w_trace (snd r)) =
    (count_events is_projection (w_trace w) + count)%nat /\
  count_events is_selection (w_trace (snd r)) =
    (count_events is_selection (w_trace w) + count)%nat /\
  count_events is_eigs (w_trace (snd r)) =
    (count_events is_eigs (w_trace w) + count)%nat.
Proof.
  unfold admm_benchmark.
  pose proof (admm_benchmark_loop_world 0 (Vars f g z u admm_penalty) w) as Hw.
  pose proof (admm_benchmark_loop_log 0 (Vars f g z u admm_penalty) w) as Hl.
  destruct (admm_benchmark_loop 0 (Vars f g z u admm_penalty) w) as [[n s] w'].
  simpl in *. rewrite Z.sub_0_r in *.
  destruct Hw as (_ & _ & _ & _ & Hclock).
  destruct Hl as (Hc & Hp & Hs & He & _).
  repeat split; assumption.
Qed.

(** X6. The verbose output: with [verbose > 0] a call that returns
    [count] prints the indices 0, 1, ..., [count - 1], one per
    iteration and in this order (the converging iteration included);
    with [verbose <= 0] it prints nothing. *)
Theorem admm_benchmark_printed_indices
  (f : F) (g : G) (z u : mat) (admm_penalty : float) (w : world) :
  let r := admm_benchmark f g z u admm_penalty w in
  let count := Z.to_nat (fst (fst (fst (fst r)))) in
  printed (w_trace (snd r)) =
    printed (w_trace w) ++
    (if (0 <? verbose)%Z then map Z.of_nat (seq 0 count) else []).
Proof.
  unfold admm_benchmark.
  pose proof (admm_benchmark_loop_log 0 (Vars f g z u admm_penalty) w) as Hl.
  destruct (admm_benchmark_loop 0 (Vars f g z u admm_penalty) w) as [[n s] w'].
  simpl in *. rewrite Z.sub_0_r in *.
  destruct Hl as (_ & _ & _ & _ & Hpr). exact Hpr.
Qed.

(** The loop that returns the counter it was entered with has run no
    iteration. *)
Lemma admm_benchmark_loop_no_progress (niter : Z) (s : vars) (w : world) :
  fst (fst (admm_benchmark_loop niter s w)) = niter ->
  admm_benchmark_loop niter s w = (niter, s, w).
Proof.
  rewrite admm_benchmark_loop_step.
  destruct (Z_lt_dec niter maxiter); [ | reflexivity ].
  destruct (admm_benchmark_body niter s w) as [[s' | s'] w'].
  - pose proof (admm_benchmark_loop_world (niter + 1) s' w') as Hw.
    destruct (admm_benchmark_loop (niter + 1) s' w') as [[n s''] w'']. simpl in *.
    intros ->. lia.
  - simpl. lia.
Qed.

Lemma admm_benchmark_loop_last_error (niter : Z) (s : vars) (w : world) :
  let r := admm_benchmark_loop niter s w in
  (niter < fst (fst r))%Z ->
  exists es : list float,
    w_errs (snd r) = w_errs w ++ es ++ [recorded_error (snd (fst r))].
Proof.
  apply (admm_benchmark_loop_induction
           (P := fun niter s w r =>
              (niter < fst (fst r))%Z ->
              exists es : list float,
                w_errs (snd r) = w_errs w ++ es ++ [recorded_error (snd (fst r))]));
    clear niter s w.
  - intros niter s w _. simpl. lia.
  - intros niter s w s' w' _ Hbody _. rewrite admm_benchmark_body_spec in Hbody.
    injection Hbody as Hc <-. rewrite Hc. simpl. exists []. reflexivity.
  - intros niter s w s' w' _ Hbody IH _. rewrite admm_benchmark_body_spec in Hbody.
    injection Hbody as Hc Hw'. rewrite Hc in Hw'. simpl in Hw'.
    destruct (Z.eq_dec (fst (fst (admm_benchmark_loop (niter + 1) s' w'))) (niter + 1))
      as [Heq | Hne].
    + rewrite (admm_benchmark_loop_no_progress Heq). simpl.
      exists []. rewrite <- Hw'. reflexivity.
    + pose proof (admm_benchmark_loop_world (niter + 1) s' w') as Hw.
      cbv zeta in Hw. destruct Hw as (Hle & _).
      destruct IH as [es Hes]; [ lia | ].
      exists (recorded_error s' :: es). rewrite Hes, <- Hw'. simpl.
      rewrite <- app_assoc. reflexivity.
Qed.

(** X7. With [maxiter >= 1] the last entry of [errs] after a call is
    the error of the matrix [z] that the call returns: the distance
    between [truth] and the eigenprojection of the returned [z]. *)
Theorem admm_benchmark_last_error_of_returned_z
  (f : F) (g : G) (z u : mat) (admm_penalty : float) (w : world) :
  (1 <= maxiter)%Z ->
  let r := admm_benchmark f g z u admm_penalty w in
  let z' := snd (fst (fst (fst r))) in
  exists es : list float,
    w_errs (snd r) =
    w_errs w ++ es ++
    [norm_fro (eigs_sym_proj z' (int_of_double ndim) - truth)%mat].
Proof.
  intros Hmax. unfold admm_benchmark.
  pose proof (@admm_benchmark_loop_last_error 0%Z (Vars f g z u admm_penalty) w) as Hl.
  assert (Hprog : (0 < fst (fst (admm_benchmark_loop 0 (Vars f g z u admm_penalty) w)))%Z).
  { pose proof (admm_benchmark_loop_world 0 (Vars f g z u admm_penalty) w) as Hw.
    cbv zeta in Hw. destruct Hw as (Hle & _).
    destruct (Z.eq_dec (fst (fst (admm_benchmark_loop 0 (Vars f g z u admm_penalty) w))) 0)
      as [Heq | Hne]; [ exfalso | lia ].
    pose proof (admm_benchmark_loop_no_progress Heq) as Hnp.
    rewrite admm_benchmark_loop_step in Hnp.
    destruct (Z_lt_dec 0 maxiter); [ | lia ].
    destruct (admm_benchmark_body 0 (Vars f g z u admm_penalty) w) as [[s' | s'] w'].
    - pose proof (admm_benchmark_loop_world 1 s' w') as Hw1.
      cbv zeta in Hw1. destruct Hw1 as (Hle1 & _).
      change (0 + 1)%Z with 1%Z in Hnp. rewrite Hnp in Hle1. simpl in Hle1. lia.
    - discriminate. }
  cbv zeta in Hl. specialize (Hl Hprog).
  destruct (admm_benchmark_loop 0 (Vars f g z u admm_penalty) w) as [[n s] w'].
  simpl in *. exact Hl.
Qed.

End ADMM.

(** * The identity functors *)

(** C8, as the code has it.  With the identity functors and
    [maxiter >= 1], a call returns 1 when the residuals of its own first
    iteration are below the tolerance: [rr = norm(x - z')] and
    [ss = penalty * norm(z' - z)] for [x = z - u + input/penalty] and
    [z' = x + u], computed from the [z], [u] and penalty it is entered
    with.  (That an earlier call ended with its residuals below the
    tolerance does not decide these two.) *)
Theorem admm_identity_returns_one {mat : Type} {A : Arma mat}
  (input : mat) (admm_adjust : float) (maxiter : Z) (tolerance : float)
  (z u : mat) (admm_penalty : float) :
  (1 <= maxiter)%Z ->
  let x := (z - u + input / admm_penalty)%mat in
  let z' := (x + u)%mat in
  (norm_fro (x - z')%mat <? tolerance)%float = true ->
  (admm_penalty * norm_fro (z' - z)%mat <? tolerance)%float = true ->
  admm identity_projection identity_selection input admm_adjust maxiter tolerance
       tt tt z u admm_penalty
  = (1%Z, z', (u + x - z')%mat, admm_penalty).
Proof.
  intros Hmax x z' Hrr Hss. unfold admm.
  rewrite admm_loop_step.
  destruct (Z_lt_dec 0 maxiter); [ | lia ].
  unfold admm_body, converged, admm_update, identity_projection, identity_selection.
  simpl. fold x. fold z'. rewrite Hrr, Hss. reflexivity.
Qed.

(** * The claims on concrete calls

    Dense matrices, identity functors.  [0x1p-20] is a tolerance just
    below [1e-6]. *)

Lemma dmat_norm_nonneg : norm_nonneg dmat_arma.
Proof. intros m. apply float_sqrt_not_neg. Qed.

(** C1 on the first iteration of a call on 2x2 matrices. *)
Lemma admm_iteration_steps_witness :
  let input : dmat := [1; 2; 3; 4]%float in
  let s0 := Vars tt tt [0; 1; 0; 0]%float [0; 0; 2; 0]%float 1%float in
  it_z_old (admm_update identity_projection identity_selection input s0) = v_z s0 /\
  it_x (admm_update identity_projection identity_selection input s0) =
    spec_x identity_projection input s0 /\
  it_z (admm_update identity_projection identity_selection input s0) =
    spec_z identity_projection identity_selection input s0 /\
  it_u (admm_update identity_projection identity_selection input s0) =
    spec_u identity_projection identity_selection input s0 /\
  it_rr (admm_update identity_projection identity_selection input s0) =
    spec_r identity_projection identity_selection input s0 /\
  it_ss (admm_update identity_projection identity_selection input s0) =
    spec_s identity_projection identity_selection input s0 /\
  admm_loop identity_projection identity_selection input 2%float 5 0x1p-20%float 0 s0 =
    if ((spec_r identity_projection identity_selection input s0 <? 0x1p-20)%float &&
        (spec_s identity_projection identity_selection input s0 <? 0x1p-20)%float)
    then
      ((0 + 1)%Z,
       Vars (it_projection (admm_update identity_projection identity_selection input s0))
            (it_selection (admm_update identity_projection identity_selection input s0))
            (spec_z identity_projection identity_selection input s0)
            (spec_u identity_projection identity_selection input s0)
            (v_penalty s0))
    else
      admm_loop identity_projection identity_selection input 2%float 5 0x1p-20%float
        (0 + 1)
        (penalty_adjust 2%float (v_penalty s0)
           (admm_update identity_projection identity_selection input s0)).
Proof.
  intros input s0.
  apply (@admm_iteration_steps dmat dmat_arma unit unit identity_projection
           identity_selection input 2%float 5%Z 0x1p-20%float s0 0%nat 0%Z s0);
    [ lia | reflexivity | lia ].
Defined.

(** C2 on the specification's scenario: zero input, [z] and [u] zero,
    penalty 1; the first iteration converges and the call returns 1. *)
Lemma admm_converged_iteration_returns_witness :
  let zero : dmat := [0; 0; 0; 0]%float in
  let s0 := Vars tt tt zero zero 1%float in
  admm_loop identity_projection identity_selection zero 2%float 50 0x1p-20%float 0 s0 =
    (1%Z, Vars tt tt zero zero 1%float) /\
  0%Z = Z.of_nat 0 /\
  forall j : nat, (0 < j)%nat ->
    loop_head identity_projection identity_selection zero 2%float 50 0x1p-20%float j 0 s0
    = None.
Proof.
  intros zero s0.
  exact (@admm_converged_iteration_returns dmat dmat_arma unit unit
           identity_projection identity_selection zero 2%float 50%Z 0x1p-20%float
           s0 0%nat 0%Z s0 eq_refl eq_refl eq_refl eq_refl).
Defined.

(** C3 on an iteration with [rr = 0] and [ss = 2]: the penalty is
    halved and [u] doubled. *)
Lemma admm_penalty_adjustment_witness :
  let input : dmat := [1.5]%float in
  let s0 := Vars tt tt [9007199254740992]%float [0]%float 1%float in
  let it := admm_update identity_projection identity_selection input s0 in
  let s' := penalty_adjust 2%float (v_penalty s0) it in
  (it_rr it, it_ss it) = (0, 2)%float /\
  converged 1.5%float it = false /\
  loop_head identity_projection identity_selection input 2%float 50 1.5%float 1 0 s0
    = Some (1%Z, s') /\
  v_penalty s' = (1 / 2)%float /\
  v_u s' = (it_u it * 2)%mat.
Proof.
  intros input s0 it s'.
  destruct (@admm_penalty_adjustment dmat dmat_arma unit unit
              identity_projection identity_selection input 2%float 50%Z 1.5%float
              s0 0%nat 0%Z s0 dmat_norm_nonneg eq_refl eq_refl eq_refl)
    as (Hhead & _ & _ & Hdown & _).
  destruct (Hdown eq_refl) as [Hp Hu].
  split; [ reflexivity | ].
  split; [ reflexivity | ].
  split; [ exact Hhead | ].
  split; [ exact Hp | exact Hu ].
Defined.

(** C7 (as the code has it) on a call with penalty 1 and factor 2. *)
Lemma admm_penalty_never_negative_witness :
  let input : dmat := [1; 2; 3; 4]%float in
  let z : dmat := [0; 1; 0; 0]%float in
  let u : dmat := [0; 0; 2; 0]%float in
  (forall (k : nat) (niter : Z) (s : vars),
     loop_head identity_projection identity_selection input 2%float 5 0x1p-20%float
       k 0 (Vars tt tt z u 1%float) = Some (niter, s) ->
     (0 <=? v_penalty s)%float = true) /\
  (0 <=? snd (admm identity_projection identity_selection input 2%float 5 0x1p-20%float
                tt tt z u 1%float))%float = true.
Proof.
  intros input z u.
  exact (@admm_penalty_never_negative dmat dmat_arma unit unit
           identity_projection identity_selection input 2%float 5%Z 0x1p-20%float
           tt tt z u 1%float eq_refl eq_refl eq_refl).
Defined.

(** C9 on a call with [maxiter = -3]. *)
Lemma admm_maxiter_nonpositive_witness :
  let input : dmat := [1; 2; 3; 4]%float in
  let z : dmat := [0; 1; 0; 0]%float in
  let u : dmat := [0; 0; 2; 0]%float in
  admm identity_projection identity_selection input 2%float (-3) 0x1p-20%float
       tt tt z u 1%float = (0%Z, z, u, 1%float) /\
  loop_head identity_projection identity_selection input 2%float (-3) 0x1p-20%float
       1 0 (Vars tt tt z u 1%float) = None.
Proof.
  intros input z u.
  apply (@admm_maxiter_nonpositive dmat dmat_arma unit unit
           identity_projection identity_selection input 2%float (-3)%Z 0x1p-20%float
           tt tt z u 1%float).
  lia.
Defined.

(** C8 (as the code has it) on the specification's scenario: zero
    input, [z] and [u] zero, penalty 1, [maxiter = 50]. *)
Lemma admm_identity_returns_one_witness :
  let zero : dmat := [0; 0; 0; 0]%float in
  admm identity_projection identity_selection zero 2%float 50 0x1p-20%float
       tt tt zero zero 1%float = (1%Z, zero, zero, 1%float).
Proof.
  intros zero.
  apply (@admm_identity_returns_one dmat dmat_arma zero 2%float 50%Z 0x1p-20%float
           zero zero 1%float); [ lia | reflexivity | reflexivity ].
Defined.

(** ** Where the claims fail as stated *)

(** C4 fails: a call that converges in its [maxiter]-th iteration
    returns [maxiter] (here [maxiter = 1] and the first iteration passes
    the convergence test), and a call with a negative [maxiter] returns
    0, which is above [maxiter]. *)
Lemma admm_count_maxiter_on_convergence :
  let zero : dmat := [0]%float in
  let s0 := Vars tt tt zero zero 1%float in
  (admm identity_projection identity_selection zero 2%float 1 0x1p-20%float
        tt tt zero zero 1%float = (1%Z, zero, zero, 1%float) /\
   converged 0x1p-20%float (admm_update identity_projection identity_selection zero s0)
     = true /\
   breaks_at identity_projection identity_selection zero 2%float 1 0x1p-20%float 0 0 s0
     = true) /\
  (fst (fst (fst (admm identity_projection identity_selection zero 2%float (-3)
                       0x1p-20%float tt tt zero zero 1%float))) = 0%Z /\
   (-3 < 0)%Z).
Proof. repeat split. Qed.

(** C6 fails: the histories are the caller's vectors and are appended
    to; a call entered with one entry in each and returning 1 leaves
    two entries in each. *)
Lemma admm_benchmark_histories_longer_than_count :
  let zero : dmat := [0]%float in
  let w := World [0.25]%float [0.5]%float 0 [] in
  let r := admm_benchmark identity_projection identity_selection zero 2%float 1
             0x1p-20%float (fun _ => 0%float) (fun z _ => z) 1%float zero 0
             tt tt zero zero 1%float w in
  fst (fst (fst (fst r))) = 1%Z /\
  length (w_times (snd r)) = 2%nat /\
  length (w_errs (snd r)) = 2%nat.
Proof. repeat split. Qed.

(** C7 fails: in binary64 the quotient of a positive penalty by a factor
    above one can be zero.  Entered with the smallest positive double as
    penalty and [admm_adjust = 2], the first iteration has [rr = 0] and
    [ss = 0x1p-1024], does not converge, and halves the penalty to 0. *)
Lemma admm_penalty_underflows_to_zero :
  let input : dmat := [0x1p-1024]%float in
  let s0 := Vars tt tt [0]%float [0]%float 0x1p-1074%float in
  let it := admm_update identity_projection identity_selection input s0 in
  (0 <? 0x1p-1074)%float = true /\
  (1 <? 2)%float = true /\
  (it_rr it, it_ss it) = (0, 0x1p-1024)%float /\
  admm identity_projection identity_selection input 2%float 1 0x1p-1030%float
       tt tt [0]%float [0]%float 0x1p-1074%float
  = (1%Z, [0x1p+50]%float, [0]%float, 0%float) /\
  (0 <? 0)%float = false.
Proof. repeat split. Qed.

(** C8 fails: a call with the identity functors converges in its first
    iteration ([rr = 0], [ss = 1], tolerance 1.5) and leaves
    [z = 2^53], [u = 0], penalty 1; a fresh call with the same input,
    functors, tolerance and budget, entered with exactly these values,
    has [ss = 2] in its first iteration and returns 2.  (Between [2^53]
    and [2^54] the doubles are the even integers.) *)
Lemma admm_warm_start_returns_two :
  let input : dmat := [1.5]%float in
  let first := admm identity_projection identity_selection input 2%float 50 1.5%float
                    tt tt [9007199254740991]%float [0]%float 1%float in
  first = (1%Z, [9007199254740992]%float, [0]%float, 1%float) /\
  breaks_at identity_projection identity_selection input 2%float 50 1.5%float 0 0
            (Vars tt tt [9007199254740991]%float [0]%float 1%float) = true /\
  admm identity_projection identity_selection input 2%float 50 1.5%float
       tt tt [9007199254740992]%float [0]%float 1%float
  = (2%Z, [9007199254740996]%float, [0]%float, 0.5%float).
Proof. repeat split. Qed.

(** * One call against another *)

Section Budgets.
Context {mat : Type} {A : Arma mat} {F G : Type}.
Variable projection : F -> mat -> F * mat.
Variable selection : G -> mat -> float -> G * mat.
Variable input : mat.
Variable admm_adjust : float.
Variable tolerance : float.

(** A loop head reached under one budget is reached under every budget
    that allows as many iterations. *)
Lemma loop_head_budget (M M' : Z) (k : nat) (n0 : Z) (s0 : vars) (n : Z) (s : vars) :
  loop_head projection selection input admm_adjust M tolerance k n0 s0 = Some (n, s) ->
  (n0 + Z.of_nat k <= M')%Z ->
  loop_head projection selection input admm_adjust M' tolerance k n0 s0 = Some (n, s).
Proof.
  revert n s; induction k as [ | k IH]; intros n s; simpl.
  - intros H _. exact H.
  - destruct (loop_head projection selection input admm_adjust M tolerance k n0 s0)
      as [[n1 s1] | ] eqn:Hhead; [ | discriminate ].
    destruct (Z_lt_dec n1 M); [ | discriminate ].
    intros Hstep Hle.
    rewrite (IH n1 s1 eq_refl) by lia.
    pose proof (loop_head_niter Hhead) as Hn1.
    destruct (Z_lt_dec n1 M'); [ exact Hstep | lia ].
Qed.

(** X1. The result does not depend on the budget once the call
    converges within it: if a call with budget [M] takes the [break] in
    its (k+1)-th iteration, a call with any budget [M' > k] on the same
    arguments returns the same count, [z], [u] and penalty. *)
Theorem admm_result_independent_of_budget
  (M M' : Z) (k : nat) (f : F) (g : G) (z u : mat) (admm_penalty : float) :
  breaks_at projection selection input admm_adjust M tolerance k 0
            (Vars f g z u admm_penalty) = true ->
  (Z.of_nat k < M')%Z ->
  admm projection selection input admm_adjust M' tolerance f g z u admm_penalty =
  admm projection selection input admm_adjust M tolerance f g z u admm_penalty.
Proof.
  unfold breaks_at, admm. intros Hbreak Hk.
  destruct (loop_head projection selection input admm_adjust M tolerance k 0
              (Vars f g z u admm_penalty)) as [[n s] | ] eqn:Hhead; [ | discriminate ].
  destruct (Z_lt_dec n M) as [Hn | ]; [ | discriminate ].
  pose proof (loop_head_niter Hhead) as Hnk.
  assert (Hhead' : loop_head projection selection input admm_adjust M' tolerance k 0
                     (Vars f g z u admm_penalty) = Some (n, s)).
  { apply (loop_head_budget Hhead). lia. }
  rewrite (loop_head_resume Hhead), (loop_head_resume Hhead').
  rewrite (admm_loop_step projection selection input admm_adjust M tolerance n s).
  rewrite (admm_loop_step projection selection input admm_adjust M' tolerance n s).
  destruct (Z_lt_dec n M); [ | contradiction ].
  destruct (Z_lt_dec n M'); [ | lia ].
  destruct (admm_body projection selection input admm_adjust tolerance s);
    [ discriminate | reflexivity ].
Qed.

(** The loop does not look at the counter except to compare it with the
    budget: shifting both shifts the returned count. *)
Lemma admm_loop_shift (M d niter : Z) (s : vars) :
  admm_loop projection selection input admm_adjust (M + d) tolerance (niter + d) s =
  ((fst (admm_loop projection selection input admm_adjust M tolerance niter s) + d)%Z,
   snd (admm_loop projection selection input admm_adjust M tolerance niter s)).
Proof.
  apply (admm_loop_induction
           (P := fun niter s r =>
              admm_loop projection selection input admm_adjust (M + d) tolerance
                        (niter + d) s = ((fst r + d)%Z, snd r))); clear niter s.
  - intros niter s Hge. rewrite admm_loop_step.
    destruct (Z_lt_dec (niter + d) (M + d)); [ lia | reflexivity ].
  - intros niter s s' Hlt Hbody. rewrite admm_loop_step.
    destruct (Z_lt_dec (niter + d) (M + d)); [ | lia ].
    rewrite Hbody. simpl. f_equal. lia.
  - intros niter s s' Hlt Hbody IH.
    rewrite (admm_loop_step projection selection input admm_adjust (M + d) tolerance
               (niter + d) s).
    destruct (Z_lt_dec (niter + d) (M + d)); [ | lia ].
    rewrite Hbody.
    replace (niter + d + 1)%Z with (niter + 1 + d)%Z by lia. exact IH.
Qed.

(** A budget of [a + b] spent in one loop, or [a] first and [b] from
    where the first loop stopped, when the first does not break. *)
Lemma admm_loop_continue (a b niter : Z) (s : vars) :
  (0 <= b)%Z ->
  (niter <= a)%Z ->
  (forall k : nat,
     breaks_at projection selection input admm_adjust a tolerance k niter s = false) ->
  admm_loop projection selection input admm_adjust (a + b) tolerance niter s =
  admm_loop projection selection input admm_adjust (a + b) tolerance a
    (snd (admm_loop projection selection input admm_adjust a tolerance niter s)).
Proof.
  intros Hb.
  apply (admm_loop_induction
           (P := fun niter s r =>
              (niter <= a)%Z ->
              (forall k : nat,
                 breaks_at projection selection input admm_adjust a tolerance k niter s
                 = false) ->
              admm_loop projection selection input admm_adjust (a + b) tolerance niter s =
              admm_loop projection selection input admm_adjust (a + b) tolerance a
                        (snd r))); clear niter s.
  - intros niter s Hge Hle _. simpl. replace niter with a by lia. reflexivity.
  - intros niter s s' Hlt Hbody _ Hnone. exfalso.
    specialize (Hnone 0%nat). unfold breaks_at in Hnone. simpl in Hnone.
    destruct (Z_lt_dec niter a); [ | contradiction ].
    rewrite Hbody in Hnone. discriminate.
  - intros niter s s' Hlt Hbody IH _ Hnone.
    rewrite (admm_loop_step projection selection input admm_adjust (a + b) tolerance
               niter s).
    destruct (Z_lt_dec niter (a + b)); [ | lia ].
    rewrite Hbody. apply IH; [ lia | ].
    intros k. specialize (Hnone (S k)). rewrite breaks_at_S in Hnone.
    destruct (Z_lt_dec niter a); [ | contradiction ].
    rewrite Hbody in Hnone. exact Hnone.
Qed.

(** Functors without members of their own stay as they are. *)
Lemma admm_loop_functors (M niter : Z) (s : vars) :
  (forall (f : F) (x : mat), fst (projection f x) = f) ->
  (forall (g : G) (z : mat) (k : float), fst (selection g z k) = g) ->
  v_projection (snd (admm_loop projection selection input admm_adjust M tolerance niter s))
    = v_projection s /\
  v_selection (snd (admm_loop projection selection input admm_adjust M tolerance niter s))
    = v_selection s.
Proof.
  intros Hp Hs.
  assert (Hbody : forall s : vars,
            v_projection (control_state
                            (admm_body projection selection input admm_adjust tolerance s))
              = v_projection s /\
            v_selection (control_state
                           (admm_body projection selection input admm_adjust tolerance s))
              = v_selection s).
  { intros s1. unfold admm_body, penalty_adjust, admm_update.
    pose proof (Hp (v_projection s1) (v_z s1 - v_u s1 + input / v_penalty s1)%mat) as Hp1.
    destruct (projection (v_projection s1) (v_z s1 - v_u s1 + input / v_penalty s1)%mat)
      as [f x]. simpl in Hp1.
    pose proof (Hs (v_selection s1) (x + v_u s1)%mat (1 / v_penalty s1)%float) as Hs1.
    destruct (selection (v_selection s1) (x + v_u s1)%mat (1 / v_penalty s1)%float)
      as [g z]. simpl in Hs1. simpl.
    destruct (converged _ _); simpl; [ split; assumption | ].
    destruct (gtb _ _); simpl; [ split; assumption | ].
    destruct (gtb _ _); simpl; split; assumption. }
  apply (admm_loop_induction
           (P := fun niter s r =>
              v_projection (snd r) = v_projection s /\
              v_selection (snd r) = v_selection s)); clear niter s.
  - intros niter s _. split; reflexivity.
  - intros niter s s' _ Hb. specialize (Hbody s). rewrite Hb in Hbody. exact Hbody.
  - intros niter s s' _ Hb [IH1 IH2]. specialize (Hbody s). rewrite Hb in Hbody.
    simpl in Hbody. destruct Hbody as [H1 H2]. rewrite IH1, IH2. split; assumption.
Qed.

(** X2. Warm start as continuation.  For functors without members of
    their own: when a call with budget [a] runs its whole budget
    without taking the [break], a second call with budget [b] entered
    with the [z], [u] and penalty the first one left gives the [z], [u]
    and penalty of a single call with budget [a + b], whose count is
    [a] plus the count of the second call. *)
Theorem admm_warm_start_continues
  (a b : Z) (f : F) (g : G) (z u : mat) (admm_penalty : float) :
  (forall (f : F) (x : mat), fst (projection f x) = f) ->
  (forall (g : G) (z : mat) (k : float), fst (selection g z k) = g) ->
  (0 <= a)%Z -> (0 <= b)%Z ->
  (forall k : nat,
     breaks_at projection selection input admm_adjust a tolerance k 0
               (Vars f g z u admm_penalty) = false) ->
  let first := admm projection selection input admm_adjust a tolerance
                    f g z u admm_penalty in
  let second := admm projection selection input admm_adjust b tolerance f g
                     (snd (fst (fst first))) (snd (fst first)) (snd first) in
  admm projection selection input admm_adjust (a + b) tolerance f g z u admm_penalty =
  ((a + fst (fst (fst second)))%Z,
   snd (fst (fst second)), snd (fst second), snd second).
Proof.
  intros Hp Hs Ha Hb Hnone first second. unfold second, first, admm.
  rewrite (admm_loop_continue (a := a) (b := b) (niter := 0%Z)) by assumption.
  destruct (@admm_loop_functors a 0%Z (Vars f g z u admm_penalty) Hp Hs) as [Hf Hg].
  destruct (admm_loop projection selection input admm_adjust a tolerance 0
              (Vars f g z u admm_penalty)) as [na [fa ga za ua ra]].
  simpl in *. subst fa ga.
  pose proof (admm_loop_shift b a 0 (Vars f g za ua ra)) as Hshift.
  rewrite Z.add_comm in Hshift. simpl in Hshift.
  rewrite Hshift.
  destruct (admm_loop projection selection input admm_adjust b tolerance 0
              (Vars f g za ua ra)) as [nb sb].
  simpl. rewrite (Z.add_comm nb a). reflexivity.
Qed.

End Budgets.

Section Surroundings.
Context {mat : Type} {A : Arma mat} {F G : Type}.
Variable projection : F -> mat -> F * mat.
Variable selection : G -> mat -> float -> G * mat.
Variable input : mat.
Variable admm_adjust : float.
Variable maxiter : Z.
Variable tolerance : float.
Variable wall_time : nat -> float.
Variable eigs_sym_proj : mat -> Z -> mat.
Variable ndim : float.
Variable truth : mat.

Lemma without_prints_app (a b : list event) :
  without_prints (a ++ b) = without_prints a ++ without_prints b.
Proof. unfold without_prints. apply filter_app. Qed.

Lemma without_prints_iteration_events
  (v1 v2 : Z) (niter : Z) (c : nat) (s' : @vars mat F G) :
  without_prints (iteration_events wall_time eigs_sym_proj ndim truth v1 niter c s') =
  without_prints (iteration_events wall_time eigs_sym_proj ndim truth v2 niter c s').
Proof.
  unfold iteration_events. destruct (0 <? v1)%Z, (0 <? v2)%Z; reflexivity.
Qed.

(** Two runs of the loop on the same variables, with the clock at the
    same reading: whatever the two history vectors and the log hold,
    and whatever the two verbosity flags are, the runs return the same
    counter and variables, read the clock equally often and append the
    same errors and durations; what they append to the log is the same
    up to the verbose output, and the same when the flags agree. *)
Lemma admm_benchmark_loop_frame (v1 v2 : Z) (niter : Z) (s : vars) (w1 w2 : world) :
  w_clock w1 = w_clock w2 ->
  let r1 := admm_benchmark_loop projection selection input admm_adjust maxiter tolerance
              wall_time eigs_sym_proj ndim truth v1 niter s w1 in
  let r2 := admm_benchmark_loop projection selection input admm_adjust maxiter tolerance
              wall_time eigs_sym_proj ndim truth v2 niter s w2 in
  fst r1 = fst r2 /\
  w_clock (snd r1) = w_clock (snd r2) /\
  exists (es ts : list float) (tr1 tr2 : list event),
    w_errs (snd r1) = w_errs w1 ++ es /\ w_errs (snd r2) = w_errs w2 ++ es /\
    w_times (snd r1) = w_times w1 ++ ts /\ w_times (snd r2) = w_times w2 ++ ts /\
    w_trace (snd r1) = w_trace w1 ++ tr1 /\ w_trace (snd r2) = w_trace w2 ++ tr2 /\
    without_prints tr1 = without_prints tr2 /\
    (v1 = v2 -> tr1 = tr2).
Proof.
  revert w2.
  apply (admm_benchmark_loop_induction
           (P := fun niter s w1 r1 =>
              forall w2 : world,
              w_clock w1 = w_clock w2 ->
              let r2 := admm_benchmark_loop projection selection input admm_adjust
                          maxiter tolerance wall_time eigs_sym_proj ndim truth v2
                          niter s w2 in
              fst r1 = fst r2 /\
              w_clock (snd r1) = w_clock (snd r2) /\
              exists (es ts : list float) (tr1 tr2 : list event),
                w_errs (snd r1) = w_errs w1 ++ es /\ w_errs (snd r2) = w_errs w2 ++ es /\
                w_times (snd r1) = w_times w1 ++ ts /\
                w_times (snd r2) = w_times w2 ++ ts /\
                w_trace (snd r1) = w_trace w1 ++ tr1 /\
                w_trace (snd r2) = w_trace w2 ++ tr2 /\
                without_prints tr1 = without_prints tr2 /\
                (v1 = v2 -> tr1 = tr2))); clear niter s w1.
  - intros niter s w1 Hge w2 Hclock r2. unfold r2.
    rewrite admm_benchmark_loop_step.
    destruct (Z_lt_dec niter maxiter); [ lia | ]. simpl.
    split; [ reflexivity | split; [ assumption | ] ].
    exists [], [], [], []. rewrite !app_nil_r. repeat split.
  - intros niter s w1 s' w1' Hlt Hbody w2 Hclock r2. unfold r2.
    rewrite admm_benchmark_loop_step.
    destruct (Z_lt_dec niter maxiter); [ | contradiction ].
    rewrite admm_benchmark_body_spec in Hbody. injection Hbody as Hc <-.
    rewrite admm_benchmark_body_spec, Hc. simpl.
    split; [ reflexivity | split; [ congruence | ] ].
    exists [recorded_error eigs_sym_proj ndim truth s'],
           [recorded_time wall_time (w_clock w1)],
           (iteration_events wall_time eigs_sym_proj ndim truth v1 niter (w_clock w1) s'),
           (iteration_events wall_time eigs_sym_proj ndim truth v2 niter (w_clock w2) s').
    rewrite <- Hclock. repeat split.
    + apply without_prints_iteration_events.
    + intros ->. reflexivity.
  - intros niter s w1 s' w1' Hlt Hbody IH w2 Hclock r2. unfold r2.
    rewrite (admm_benchmark_loop_step projection selection input admm_adjust maxiter
               tolerance wall_time eigs_sym_proj ndim truth v2 niter s w2).
    destruct (Z_lt_dec niter maxiter); [ | contradiction ].
    rewrite admm_benchmark_body_spec in Hbody. injection Hbody as Hc <-.
    rewrite admm_benchmark_body_spec, Hc. rewrite Hc in IH. simpl control_state in *.
    match goal with
    | |- context [admm_benchmark_loop _ _ _ _ _ _ _ _ _ _ v2 _ s' ?w] =>
        specialize (IH w); set (w2' := w) in *
    end.
    simpl in IH. specialize (IH ltac:(congruence)).
    destruct IH as (Hfst & Hclk & es & ts & tr1 & tr2 & E1 & E2 & T1 & T2 & L1 & L2 & Hwp & Htr).
    split; [ exact Hfst | split; [ exact Hclk | ] ].
    exists (recorded_error eigs_sym_proj ndim truth s' :: es),
           (recorded_time wall_time (w_clock w1) :: ts),
           (iteration_events wall_time eigs_sym_proj ndim truth v1 niter (w_clock w1) s'
              ++ tr1),
           (iteration_events wall_time eigs_sym_proj ndim truth v2 niter (w_clock w2) s'
              ++ tr2).
    rewrite E1, E2, T1, T2, L1, L2. unfold w2'. simpl.
    rewrite <- !app_assoc, <- Hclock. simpl. repeat split.
    + rewrite !without_prints_app, Hwp.
      f_equal. apply without_prints_iteration_events.
    + intros Hv. rewrite (Htr Hv). subst v2. reflexivity.
Qed.

(** X10. The verbosity flag is cosmetic: two calls of [admm_benchmark]
    that differ only in [verbose] return the same count, [z], [u] and
    penalty, leave the same [errs] and [times], read the clock equally
    often, and their logs agree once the verbose output is taken out. *)
Theorem admm_benchmark_verbose_is_cosmetic
  (v1 v2 : Z) (f : F) (g : G) (z u : mat) (admm_penalty : float) (w : world) :
  let r1 := admm_benchmark projection selection input admm_adjust maxiter tolerance
              wall_time eigs_sym_proj ndim truth v1 f g z u admm_penalty w in
  let r2 := admm_benchmark projection selection input admm_adjust maxiter tolerance
              wall_time eigs_sym_proj ndim truth v2 f g z u admm_penalty w in
  fst r1 = fst r2 /\
  w_errs (snd r1) = w_errs (snd r2) /\
  w_times (snd r1) = w_times (snd r2) /\
  w_clock (snd r1) = w_clock (snd r2) /\
  without_prints (w_trace (snd r1)) = without_prints (w_trace (snd r2)).
Proof.
  unfold admm_benchmark.
  pose proof (@admm_benchmark_loop_frame v1 v2 0%Z (Vars f g z u admm_penalty) w w eq_refl)
    as H.
  cbv zeta in H.
  destruct (admm_benchmark_loop projection selection input admm_adjust maxiter tolerance
              wall_time eigs_sym_proj ndim truth v1 0 (Vars f g z u admm_penalty) w)
    as [[n1 s1] w1].
  destruct (admm_benchmark_loop projection selection input admm_adjust maxiter tolerance
              wall_time eigs_sym_proj ndim truth v2 0 (Vars f g z u admm_penalty) w)
    as [[n2 s2] w2].
  simpl in *.
  destruct H as (Hfst & Hclk & es & ts & tr1 & tr2 & E1 & E2 & T1 & T2 & L1 & L2 & Hwp & _).
  injection Hfst as -> ->.
  rewrite E1, E2, T1, T2, L1, L2, !without_prints_app, Hwp.
  repeat split. exact Hclk.
Qed.

(** X11. What a call appends does not depend on what the caller's
    vectors and the log held: the call returns what it returns when
    entered with empty vectors and an empty log (the clock at the same
    reading), and leaves the old contents followed by what that call
    leaves. *)
Theorem admm_benchmark_appends_to_histories
  (verbose : Z) (f : F) (g : G) (z u : mat) (admm_penalty : float) (w : world) :
  let r := admm_benchmark projection selection input admm_adjust maxiter tolerance
             wall_time eigs_sym_proj ndim truth verbose f g z u admm_penalty w in
  let r0 := admm_benchmark projection selection input admm_adjust maxiter tolerance
              wall_time eigs_sym_proj ndim truth verbose f g z u admm_penalty
              (World [] [] (w_clock w) []) in
  fst r = fst r0 /\
  w_errs (snd r) = w_errs w ++ w_errs (snd r0) /\
  w_times (snd r) = w_times w ++ w_times (snd r0) /\
  w_trace (snd r) = w_trace w ++ w_trace (snd r0) /\
  w_clock (snd r) = w_clock (snd r0).
Proof.
  unfold admm_benchmark.
  pose proof (@admm_benchmark_loop_frame verbose verbose 0%Z (Vars f g z u admm_penalty)
                w (World [] [] (w_clock w) []) eq_refl) as H.
  cbv zeta in H.
  destruct (admm_benchmark_loop projection selection input admm_adjust maxiter tolerance
              wall_time eigs_sym_proj ndim truth verbose 0 (Vars f g z u admm_penalty) w)
    as [[n1 s1] w1].
  destruct (admm_benchmark_loop projection selection input admm_adjust maxiter tolerance
              wall_time eigs_sym_proj ndim truth verbose 0 (Vars f g z u admm_penalty)
              (World [] [] (w_clock w) []))
    as [[n2 s2] w2].
  simpl in *.
  destruct H as (Hfst & Hclk & es & ts & tr1 & tr2 & E1 & E2 & T1 & T2 & L1 & L2 & _ & Htr).
  injection Hfst as -> ->.
  rewrite E1, E2, T1, T2, L1, L2, (Htr eq_refl).
  repeat split. exact Hclk.
Qed.

End Surroundings.

(** * The further properties on concrete calls *)

(** A call whose count is [j + 1] and whose (j+1)-th iteration does not
    break has no iteration that breaks. *)
Lemma breaks_at_none {mat : Type} {A : Arma mat} {F G : Type}
  (projection : F -> mat -> F * mat) (selection : G -> mat -> float -> G * mat)
  (input : mat) (admm_adjust : float) (maxiter : Z) (tolerance : float)
  (s : vars) (j : nat) :
  fst (admm_loop projection selection input admm_adjust maxiter tolerance 0 s)
    = (Z.of_nat j + 1)%Z ->
  breaks_at projection selection input admm_adjust maxiter tolerance j 0 s = false ->
  forall k : nat,
    breaks_at projection selection input admm_adjust maxiter tolerance k 0 s = false.
Proof.
  intros Hcount Hj k.
  destruct (breaks_at projection selection input admm_adjust maxiter tolerance k 0 s)
    eqn:Hk; [ exfalso | reflexivity ].
  destruct (breaks_at_count Hk) as [Hc _].
  assert (k = j) by lia. subst k. congruence.
Qed.

(** X1 on a call that converges in its second iteration: budgets 50
    and 2 give the same result. *)
Lemma admm_result_independent_of_budget_witness :
  let input : dmat := [1.5]%float in
  admm identity_projection identity_selection input 2%float 2 1.5%float
       tt tt [9007199254740992]%float [0]%float 1%float =
  admm identity_projection identity_selection input 2%float 50 1.5%float
       tt tt [9007199254740992]%float [0]%float 1%float.
Proof.
  intros input.
  apply (@admm_result_independent_of_budget dmat dmat_arma unit unit
           identity_projection identity_selection input 2%float 1.5%float
           50%Z 2%Z 1%nat tt tt [9007199254740992]%float [0]%float 1%float);
    [ reflexivity | lia ].
Defined.

(** X2 on the same call: one iteration, then 49 more from where it
    stopped, or a budget of 50 at once. *)
Lemma admm_warm_start_continues_witness :
  let input : dmat := [1.5]%float in
  let first := admm identity_projection identity_selection input 2%float 1 1.5%float
                    tt tt [9007199254740992]%float [0]%float 1%float in
  let second := admm identity_projection identity_selection input 2%float 49 1.5%float
                     tt tt (snd (fst (fst first))) (snd (fst first)) (snd first) in
  admm identity_projection identity_selection input 2%float (1 + 49) 1.5%float
       tt tt [9007199254740992]%float [0]%float 1%float =
  ((1 + fst (fst (fst second)))%Z, snd (fst (fst second)), snd (fst second), snd second).
Proof.
  intros input.
  apply (@admm_warm_start_continues dmat dmat_arma unit unit
           identity_projection identity_selection input 2%float 1.5%float
           1%Z 49%Z tt tt [9007199254740992]%float [0]%float 1%float).
  - intros f x. reflexivity.
  - intros g z k. reflexivity.
  - lia.
  - lia.
  - apply (@breaks_at_none dmat dmat_arma unit unit identity_projection
             identity_selection input 2%float 1%Z 1.5%float _ 0%nat);
      reflexivity.
Defined.

(** X3 on a call with tolerance 0 and a budget of 5. *)
Lemma admm_tolerance_not_positive_never_converges_witness :
  let input : dmat := [1; 2; 3; 4]%float in
  let z : dmat := [0; 1; 0; 0]%float in
  let u : dmat := [0; 0; 2; 0]%float in
  (forall k : nat,
     breaks_at identity_projection identity_selection input 2%float 5 0%float k 0
               (Vars tt tt z u 1%float) = false) /\
  fst (fst (fst (admm identity_projection identity_selection input 2%float 5 0%float
                      tt tt z u 1%float))) = Z.max 0 5.
Proof.
  intros input z u.
  exact (@admm_tolerance_not_positive_never_converges dmat dmat_arma unit unit
           identity_projection identity_selection input 2%float 5%Z 0%float
           tt tt z u 1%float dmat_norm_nonneg eq_refl).
Defined.

(** X4 on an iteration entered with [z = u = +inf], where [z - u] and
    with it [rr] are NaN. *)
Lemma admm_nan_residual_continues_witness :
  let input : dmat := [1]%float in
  let s := Vars tt tt [infinity] [infinity] 1%float in
  admm_body identity_projection identity_selection input 2%float 0x1p-20%float s =
  Continue (Vars (it_projection (admm_update identity_projection identity_selection input s))
                 (it_selection (admm_update identity_projection identity_selection input s))
                 (it_z (admm_update identity_projection identity_selection input s))
                 (it_u (admm_update identity_projection identity_selection input s))
                 (v_penalty s)).
Proof.
  intros input s.
  apply (@admm_nan_residual_continues dmat dmat_arma unit unit
           identity_projection identity_selection input 2%float 0x1p-20%float s).
  left. reflexivity.
Defined.

(** X7 on a call of two iterations. *)
Lemma admm_benchmark_last_error_of_returned_z_witness :
  let input : dmat := [1.5]%float in
  let truth : dmat := [0]%float in
  let w := World [0.25]%float [0.5]%float 0 [] in
  let r := admm_benchmark identity_projection identity_selection input 2%float 5
             1.5%float (fun _ => 0%float) (fun z _ => z) 1%float truth 0
             tt tt [9007199254740992]%float [0]%float 1%float w in
  exists es : list float,
    w_errs (snd r) =
    w_errs w ++ es ++
    [norm_fro (snd (fst (fst (fst r))) - truth)%mat].
Proof.
  intros input truth w.
  apply (@admm_benchmark_last_error_of_returned_z dmat dmat_arma unit unit
           identity_projection identity_selection input 2%float 5%Z 1.5%float
           (fun _ => 0%float) (fun z _ => z) 1%float truth 0%Z
           tt tt [9007199254740992]%float [0]%float 1%float w).
  lia.
Defined.

(** X8 on a call that returns 2 with a budget of 50. *)
Lemma admm_count_below_budget_converged_witness :
  let input : dmat := [1.5]%float in
  let r := admm identity_projection identity_selection input 2%float 50 1.5%float
                tt tt [9007199254740992]%float [0]%float 1%float in
  exists s : vars,
    loop_head identity_projection identity_selection input 2%float 50 1.5%float
      (Z.to_nat (fst (fst (fst r)) - 1)) 0
      (Vars tt tt [9007199254740992]%float [0]%float 1%float)
      = Some ((fst (fst (fst r)) - 1)%Z, s) /\
    (1 <= fst (fst (fst r)))%Z /\
    (it_rr (admm_update identity_projection identity_selection input s) <? 1.5)%float
      = true /\
    (it_ss (admm_update identity_projection identity_selection input s) <? 1.5)%float
      = true /\
    r = (fst (fst (fst r)),
         it_z (admm_update identity_projection identity_selection input s),
         it_u (admm_update identity_projection identity_selection input s),
         v_penalty s).
Proof.
  intros input.
  apply (@admm_count_below_budget_converged dmat dmat_arma unit unit
           identity_projection identity_selection input 2%float 50%Z 1.5%float
           tt tt [9007199254740992]%float [0]%float 1%float).
  reflexivity.
Defined.

(** X9 on a call with [maxiter = 0] and non-empty histories. *)
Lemma admm_benchmark_maxiter_nonpositive_witness :
  let input : dmat := [1.5]%float in
  let w := World [0.25]%float [0.5]%float 3 [EvClock 2] in
  admm_benchmark identity_projection identity_selection input 2%float 0
    1.5%float (fun _ => 0%float) (fun z _ => z) 1%float [0]%float 1
    tt tt [9007199254740992]%float [0]%float 1%float w =
  (0%Z, [9007199254740992]%float, [0]%float, 1%float, w).
Proof.
  intros input w.
  apply (@admm_benchmark_maxiter_nonpositive dmat dmat_arma unit unit
           identity_projection identity_selection input 2%float 0%Z 1.5%float
           (fun _ => 0%float) (fun z _ => z) 1%float [0]%float 1%Z
           tt tt [9007199254740992]%float [0]%float 1%float w).
  lia.
Defined.

(** * The functors' postconditions, the clock *)

Section Postconditions.
Context {mat : Type} {A : Arma mat} {F G : Type}.
Variable projection : F -> mat -> F * mat.
Variable selection : G -> mat -> float -> G * mat.
Variable input : mat.
Variable admm_adjust : float.
Variable maxiter : Z.
Variable tolerance : float.

Lemma admm_body_z (s : vars) :
  v_z (control_state (admm_body projection selection input admm_adjust tolerance s)) =
  spec_z projection selection input s.
Proof.
  destruct (admm_update_spec projection selection input s) as (_ & _ & Hz & _).
  unfold admm_body, penalty_adjust.
  destruct (converged _ _); simpl; [ exact Hz | ].
  destruct (gtb _ _); simpl; [ exact Hz | ].
  destruct (gtb _ _); simpl; exact Hz.
Qed.

(** X12. With [maxiter >= 1] the returned [z] is an output of the
    selection functor (of the last executed iteration): whatever
    property every output of [selection] has, the returned [z] has. *)
Theorem admm_returned_z_is_selection_output
  (Q : mat -> Prop) (f : F) (g : G) (z u : mat) (admm_penalty : float) :
  (forall (g : G) (z : mat) (k : float), Q (snd (selection g z k))) ->
  (1 <= maxiter)%Z ->
  Q (snd (fst (fst (admm projection selection input admm_adjust maxiter tolerance
                         f g z u admm_penalty)))).
Proof.
  intros HQ Hmax. unfold admm.
  assert (Hloop : forall niter s,
            (niter < maxiter)%Z \/ Q (v_z s) ->
            Q (v_z (snd (admm_loop projection selection input admm_adjust maxiter
                                   tolerance niter s)))).
  { intros niter s.
    apply (admm_loop_induction
             (P := fun niter s r => (niter < maxiter)%Z \/ Q (v_z s) -> Q (v_z (snd r))));
      clear niter s.
    - intros niter s Hge [Hlt | Hq]; [ lia | exact Hq ].
    - intros niter s s' _ Hbody _. pose proof (admm_body_z s) as Hz.
      rewrite Hbody in Hz. simpl in *. rewrite Hz. apply HQ.
    - intros niter s s' _ Hbody IH _. apply IH. right.
      pose proof (admm_body_z s) as Hz.
      rewrite Hbody in Hz. simpl in Hz. rewrite Hz. apply HQ. }
  assert (H0 : (0 < maxiter)%Z) by lia.
  specialize (Hloop 0%Z (Vars f g z u admm_penalty) (or_introl H0)).
  destruct (admm_loop projection selection input admm_adjust maxiter tolerance 0
              (Vars f g z u admm_penalty)) as [n s].
  exact Hloop.
Qed.

End Postconditions.

(** ** Differences of finite floats *)

Local Open Scope Z_scope.

Lemma Zpos_iter_xO (m d : positive) :
  Zpos (Pos.iter xO m d) = Zpos m * 2 ^ Zpos d.
Proof.
  induction d as [ | d IH] using Pos.peano_ind.
  - simpl. lia.
  - rewrite Pos.iter_succ, Pos2Z.inj_succ, Z.pow_succ_r by lia.
    rewrite (Pos2Z.inj_xO (Pos.iter xO m d)), IH. lia.
Qed.

Lemma shl_align_value (m : positive) (e ez : Z) :
  ez <= e -> Zpos (fst (shl_align m e ez)) = Zpos m * 2 ^ (e - ez).
Proof.
  intros Hle. unfold shl_align.
  destruct (ez - e) as [ | p | p] eqn:Hd; cbn [fst].
  - replace (e - ez) with 0 by lia. lia.
  - lia.
  - rewrite Zpos_iter_xO. f_equal. f_equal. lia.
Qed.

(** Canonical mantissas in the order of their values, after alignment
    on the smaller exponent. *)
Lemma aligned_le (m1 : positive) (e1 : Z) (m2 : positive) (e2 : Z) :
  fexp 53 1024 (Zpos (digits2_pos m1) + e1) = e1 ->
  fexp 53 1024 (Zpos (digits2_pos m2) + e2) = e2 ->
  e1 < e2 \/ (e1 = e2 /\ Zpos m1 <= Zpos m2) ->
  Zpos (fst (shl_align m1 e1 (Z.min e2 e1))) <= Zpos (fst (shl_align m2 e2 (Z.min e2 e1))).
Proof.
  intros H1 H2 Hord. rewrite !shl_align_value by lia.
  rewrite fexp_def in H1, H2.
  pose proof (digits2_pos_bounds m1) as B1.
  pose proof (digits2_pos_bounds m2) as B2.
  destruct Hord as [Hlt | [-> Hle]].
  - replace (Z.min e2 e1) with e1 by lia.
    replace (e1 - e1) with 0 by lia. rewrite Z.mul_1_r.
    assert (D1 : Zpos (digits2_pos m1) <= 53) by lia.
    assert (D2 : Zpos (digits2_pos m2) = 53) by lia.
    rewrite D2 in B2.
    assert (Zpos m1 < 2 ^ 53).
    { apply Z.lt_le_trans with (2 ^ Zpos (digits2_pos m1)); [ lia | ].
      apply Z.pow_le_mono_r; lia. }
    assert (2 ^ 1 <= 2 ^ (e2 - e1)) by (apply Z.pow_le_mono_r; lia).
    change (2 ^ (53 - 1)) with 4503599627370496 in B2.
    change (2 ^ 53) with 9007199254740992 in H.
    change (2 ^ 1) with 2 in H0. nia.
  - replace (Z.min e2 e2) with e2 by lia.
    replace (e2 - e2) with 0 by lia. lia.
Qed.

Lemma binary_normalize_nonneg (m e : Z) :
  0 <= m ->
  SFleb (S754_zero false) (binary_normalize 53 1024 m e false) = true.
Proof.
  intros Hm. destruct m as [ | p | p]; [ reflexivity | | lia ].
  unfold binary_normalize, binary_round.
  destruct (shl_align p e (fexp 53 1024 (Zpos (digits2_pos p) + e))) as [mz ez].
  apply binary_round_aux_nonneg. lia.
Qed.

Lemma SFsub_nonneg (x y : spec_float) :
  valid_binary x = true -> valid_binary y = true ->
  match x with S754_zero _ | S754_finite _ _ _ => True | _ => False end ->
  match y with S754_zero _ | S754_finite _ _ _ => True | _ => False end ->
  SFleb x y = true ->
  SFleb (S754_zero false) (SF64sub y x) = true.
Proof.
  intros Vx Vy Fx Fy Hle.
  destruct x as [sx | | | sx mx ex], y as [sy | | | sy my ey]; try contradiction.
  - destruct sx, sy; reflexivity.
  - destruct sy; [ discriminate | reflexivity ].
  - destruct sx; [ reflexivity | discriminate ].
  - unfold SF64sub, SFsub.
    apply binary_normalize_nonneg.
    simpl in Vx, Vy. unfold bounded, canonical_mantissa in Vx, Vy.
    apply andb_prop in Vx, Vy. destruct Vx as [Cx _], Vy as [Cy _].
    apply Z.eqb_eq in Cx, Cy.
    rewrite SFleb_key in Hle. destruct Hle as (_ & _ & Hle).
    destruct sx, sy; simpl in Hle; unfold key_le, key_lt in Hle; simpl cond_Zopp.
    + (* both negative *)
      assert (Hord : ey < ex \/ (ey = ex /\ Zpos my <= Zpos mx)).
      { destruct Hle as [Hlt | Heq]; [ lia | injection Heq as ? ?; lia ]. }
      pose proof (aligned_le Cy Cx Hord) as Ha.
      rewrite (Z.min_comm ey ex). lia.
    + lia.
    + exfalso. destruct Hle as [Hlt | Heq]; [ lia | discriminate ].
    + assert (Hord : ex < ey \/ (ex = ey /\ Zpos mx <= Zpos my)).
      { destruct Hle as [Hlt | Heq]; [ lia | injection Heq as ? ?; lia ]. }
      pose proof (aligned_le Cx Cy Hord) as Ha. lia.
Qed.

Local Close Scope Z_scope.
Local Open Scope float_scope.

Lemma is_finite_Prim2SF (x : float) :
  is_finite x = true ->
  match Prim2SF x with S754_zero _ | S754_finite _ _ _ => True | _ => False end.
Proof.
  unfold is_finite, is_nan, is_infinity.
  rewrite !eqb_spec, abs_spec, Prim2SF_infinity.
  destruct (Prim2SF x) as [s | [ | ] | | s m e]; simpl; try exact (fun _ => I);
    intros H; discriminate.
Qed.

(** For finite floats, [a <= b] makes [b - a] at least zero. *)
Lemma float_sub_nonneg (a b : float) :
  is_finite a = true -> is_finite b = true ->
  (a <=? b) = true -> (0 <=? b - a) = true.
Proof.
  intros Fa Fb Hle. rewrite leb_spec in Hle.
  rewrite leb_spec, Prim2SF_zero, sub_spec.
  apply SFsub_nonneg; try apply Prim2SF_valid; try apply is_finite_Prim2SF; assumption.
Qed.

Local Close Scope float_scope.

Section Clock.
Context {mat : Type} {A : Arma mat} {F G : Type}.
Variable projection : F -> mat -> F * mat.
Variable selection : G -> mat -> float -> G * mat.
Variable input : mat.
Variable admm_adjust : float.
Variable maxiter : Z.
Variable tolerance : float.
Variable wall_time : nat -> float.
Variable eigs_sym_proj : mat -> Z -> mat.
Variable ndim : float.
Variable truth : mat.
Variable verbose : Z.

(** X13. With a clock whose readings are finite and never decrease,
    no duration that [admm_benchmark] records is negative (or NaN):
    the call appends one duration per iteration, each at least zero. *)
Theorem admm_benchmark_durations_not_negative
  (f : F) (g : G) (z u : mat) (admm_penalty : float) (w : world) :
  (forall k : nat, is_finite (wall_time k) = true) ->
  (forall k : nat, (wall_time k <=? wall_time (S k))%float = true) ->
  let r := admm_benchmark projection selection input admm_adjust maxiter tolerance
             wall_time eigs_sym_proj ndim truth verbose f g z u admm_penalty w in
  exists ts : list float,
    w_times (snd r) = w_times w ++ ts /\
    Z.of_nat (length ts) = fst (fst (fst (fst r))) /\
    Forall (fun d => (0 <=? d)%float = true) ts.
Proof.
  intros Hfin Hmono. unfold admm_benchmark.
  pose proof (admm_benchmark_loop_world projection selection input admm_adjust maxiter
                tolerance wall_time eigs_sym_proj ndim truth verbose 0
                (Vars f g z u admm_penalty) w) as H.
  destruct (admm_benchmark_loop projection selection input admm_adjust maxiter tolerance
              wall_time eigs_sym_proj ndim truth verbose 0 (Vars f g z u admm_penalty) w)
    as [[n s] w'].
  simpl in *. destruct H as (Hle & Htimes & _). rewrite Z.sub_0_r in Htimes.
  exists (recorded_times wall_time (w_clock w) (Z.to_nat n)).
  split; [ exact Htimes | split ].
  - rewrite recorded_times_length. lia.
  - unfold recorded_times. apply Forall_forall. intros d Hin.
    apply in_map_iff in Hin. destruct Hin as (i & <- & _).
    unfold recorded_time. apply float_sub_nonneg; [ apply Hfin | apply Hfin | apply Hmono ].
Qed.

End Clock.

(** X12 on a selection functor that sets every element to zero. *)
Lemma admm_returned_z_is_selection_output_witness :
  let input : dmat := [1; 2; 3; 4]%float in
  let zeroing := fun (g : unit) (z : dmat) (k : float) => (g, map (fun _ => 0%float) z) in
  Forall (fun v => v = 0%float)
    (snd (fst (fst (admm identity_projection zeroing input 2%float 5 0x1p-20%float
                         tt tt [0; 1; 0; 0]%float [0; 0; 2; 0]%float 1%float)))).
Proof.
  intros input zeroing.
  apply (@admm_returned_z_is_selection_output dmat dmat_arma unit unit
           identity_projection zeroing input 2%float 5%Z 0x1p-20%float
           (Forall (fun v => v = 0%float)) tt tt
           [0; 1; 0; 0]%float [0; 0; 2; 0]%float 1%float).
  - intros g z k. simpl. apply Forall_forall. intros v Hin.
    apply in_map_iff in Hin. destruct Hin as (x & Hx & _). symmetry. exact Hx.
  - lia.
Defined.

(** X13 on a clock that reads 0, 0.5, 1, 1, ... *)
Lemma admm_benchmark_durations_not_negative_witness :
  let input : dmat := [1.5]%float in
  let clock := fun k : nat =>
                 match k with 0%nat => 0%float | 1%nat => 0.5%float | _ => 1%float end in
  let w := World [0.25]%float [0.5]%float 0 [] in
  let r := admm_benchmark identity_projection identity_selection input 2%float 5
             1.5%float clock (fun z _ => z) 1%float [0]%float 0
             tt tt [9007199254740992]%float [0]%float 1%float w in
  exists ts : list float,
    w_times (snd r) = w_times w ++ ts /\
    Z.of_nat (length ts) = fst (fst (fst (fst r))) /\
    Forall (fun d => (0 <=? d)%float = true) ts.
Proof.
  intros input clock w.
  apply (@admm_benchmark_durations_not_negative dmat dmat_arma unit unit
           identity_projection identity_selection input 2%float 5%Z 1.5%float
           clock (fun z _ => z) 1%float [0]%float 0%Z
           tt tt [9007199254740992]%float [0]%float 1%float w).
  - intros [ | [ | k]]; reflexivity.
  - intros [ | [ | k]]; reflexivity.
Defined.
